(** * puffin-requirements: the requirements.txt line splitter and trivia stripper

    A shallow embedding of [crates/puffin-requirements/src/lib.rs].

    - Text is a list of Unicode scalar values ([char := N]), and offsets
      count characters where the source counts UTF-8 bytes.  The source
      slices only at offsets found by [memchr]/[find] on the same string,
      at character boundaries, so every slice is the same in both counts;
      on ASCII text the two counts are equal.  They part in one place: the
      end test [self.index == self.text.len() - 1] of [next] compares an
      offset with the byte length, and the model compares character counts.
      With the cursor before a final multi-byte character (["a\n\u{e9}"]),
      the code emits that character as a last line where the model returns
      [None].  The concrete inputs below are ASCII.
    - Rust slicing [s[i..j]] panics when [i > j] or [j > s.len()]; it is
      modelled by [slice], which returns [None] there.
    - [usize] subtraction is modelled with overflow checks (a panic), the
      semantics of the debug profile in which the crate's tests run.
    - The iterator's [self.index] is explicit state; [next] recurses on
      itself, so it is written with fuel, and [OutOfFuel] is kept apart from
      [Panic] so that termination can be stated on its own. *)

From Stdlib Require Import String Ascii.
From Stdlib Require Import List Arith Lia NArith Bool.
Import ListNotations.

(* ------------------------------------------------------------------ *)
(** ** Characters *)

Definition char := N.
Definition str := list char.

Definition LF : char := 10%N.
Definition CR : char := 13%N.
Definition HASH : char := 35%N.
Definition BACKSLASH : char := 92%N.

(** [char::is_whitespace]: the Unicode [White_Space] property. *)
Definition is_whitespace (c : char) : bool :=
  ((9 <=? c)%N && (c <=? 13)%N) || (c =? 32)%N || (c =? 133)%N
  || (c =? 160)%N || (c =? 5760)%N
  || ((8192 <=? c)%N && (c <=? 8202)%N)
  || (c =? 8232)%N || (c =? 8233)%N || (c =? 8239)%N
  || (c =? 8287)%N || (c =? 12288)%N.

(** Text literals (ASCII only) for concrete inputs. *)
Definition text_of (s : String.string) : str :=
  map (fun a => Ascii.N_of_ascii a) (String.list_ascii_of_string s).

(* ------------------------------------------------------------------ *)
(** ** Panics, [usize] and [str] primitives *)

Inductive outcome (A : Type) : Type :=
| Ret (a : A)
| Panic
| OutOfFuel.
Arguments Ret {A} a.
Arguments Panic {A}.
Arguments OutOfFuel {A}.

(** [a - b] on [usize] with overflow checks. *)
Definition usize_sub (a b : nat) : option nat :=
  if b <=? a then Some (a - b) else None.

(** [s[i..j]]. *)
Definition slice (s : str) (i j : nat) : option str :=
  if (i <=? j) && (j <=? length s) then Some (firstn (j - i) (skipn i s))
  else None.

(** [s.chars().rev().next()]. *)
Definition last_char (s : str) : option char :=
  match rev s with
  | [] => None
  | c :: _ => Some c
  end.

(** [Option::is_some_and]. *)
Definition is_some_and {A} (f : A -> bool) (o : option A) : bool :=
  match o with
  | Some a => f a
  | None => false
  end.

(** [str::trim_start], [str::trim], [str::is_empty], [str::starts_with]. *)
Fixpoint trim_start (s : str) : str :=
  match s with
  | [] => []
  | c :: r => if is_whitespace c then trim_start r else s
  end.

Definition trim (s : str) : str := rev (trim_start (rev (trim_start s))).

Definition is_empty (s : str) : bool :=
  match s with [] => true | _ => false end.

Definition starts_with (s : str) (c : char) : bool :=
  match s with
  | [] => false
  | d :: _ => (d =? c)%N
  end.

(** [memchr2(a, b, bytes)]: first offset holding [a] or [b]. *)
Fixpoint memchr2 (a b : char) (s : str) : option nat :=
  match s with
  | [] => None
  | c :: r =>
      if (c =? a)%N || (c =? b)%N then Some 0
      else option_map S (memchr2 a b r)
  end.

(** [memchr_iter(needle, bytes)]: all offsets holding [needle], ascending. *)
Fixpoint memchr_iter_from (needle : char) (i : nat) (s : str) : list nat :=
  match s with
  | [] => []
  | c :: r =>
      if (c =? needle)%N then i :: memchr_iter_from needle (S i) r
      else memchr_iter_from needle (S i) r
  end.

Definition memchr_iter (needle : char) (s : str) : list nat :=
  memchr_iter_from needle 0 s.

(** [str::find(pat)] for a string pattern. *)
Fixpoint is_prefix (p s : str) : bool :=
  match p, s with
  | [], _ => true
  | a :: p', b :: s' => (a =? b)%N && is_prefix p' s'
  | _ :: _, [] => false
  end.

Fixpoint find_from (pat : str) (i : nat) (s : str) : option nat :=
  if is_prefix pat s then Some i
  else match s with
       | [] => None
       | _ :: r => find_from pat (S i) r
       end.

Definition find (s pat : str) : option nat := find_from pat 0 s.

(** [find_newline]: offset and width of the first line break. *)
Definition find_newline (text : str) : option (nat * nat) :=
  match memchr2 LF CR text with
  | None => None
  | Some position =>
      let newline_character := nth position text 0%N in
      if (newline_character =? LF)%N then Some (position, 1)
      else if (newline_character =? CR)%N
              && (match nth_error text (S position) with
                  | Some c => (c =? LF)%N
                  | None => false
                  end)
      then Some (position, 2)
      else Some (position, 1)
  end.

(* ------------------------------------------------------------------ *)
(** ** [RequirementLine::strip_trivia] *)

(** The test of the comment loop:
    [requirement[..len + position].chars().rev().next().is_some_and(char::is_whitespace)]. *)
Definition comment_test (requirement : str) (len position : nat) : option bool :=
  match slice requirement 0 (len + position) with
  | None => None
  | Some pre => Some (is_some_and is_whitespace (last_char pre))
  end.

(** [for position in memchr_iter(b'#', ..) { if .. { len = position; break; } }] *)
Fixpoint comment_loop (requirement : str) (positions : list nat) (len : nat)
  : option nat :=
  match positions with
  | [] => Some len
  | position :: rest =>
      match comment_test requirement len position with
      | None => None
      | Some true => Some position
      | Some false => comment_loop requirement rest len
      end
  end.

(** The "Strip comments." phase: the length after the comment loop. *)
Definition strip_comments (requirement : str) : option nat :=
  let len := length requirement in
  match slice requirement 0 len with
  | None => None
  | Some prefix => comment_loop requirement (memchr_iter HASH prefix) len
  end.

(** The "Strip [--hash] extras." phase. *)
Definition strip_hash (requirement : str) (len : nat) : option nat :=
  match slice requirement 0 len with
  | None => None
  | Some prefix =>
      match find prefix (text_of "--hash"%string) with
      | Some index => Some index
      | None => Some len
      end
  end.

Definition strip_trivia (requirement : str) : option nat :=
  match strip_comments requirement with
  | None => None
  | Some len => strip_hash requirement len
  end.

(** [Cow<'a, str>] and [RequirementLine]. *)
Inductive Cow : Type :=
| Borrowed (s : str)
| Owned (s : str).

Definition cow_str (c : Cow) : str :=
  match c with Borrowed s => s | Owned s => s end.

Record RequirementLine : Type := {
  line : Cow;
  len : nat
}.

Definition from_line (l : Cow) : option RequirementLine :=
  match strip_trivia (cow_str l) with
  | None => None
  | Some n => Some {| line := l; len := n |}
  end.

Definition as_str (r : RequirementLine) : option str :=
  slice (cow_str (line r)) 0 (len r).

(* ------------------------------------------------------------------ *)
(** ** A state monad over [self.index], with panics *)

Definition M (A : Type) : Type := nat -> outcome (A * nat).

Definition mret {A} (a : A) : M A := fun index => Ret (a, index).

Definition mbind {A B} (m : M A) (k : A -> M B) : M B :=
  fun index =>
    match m index with
    | Ret (a, index') => k a index'
    | Panic => Panic
    | OutOfFuel => OutOfFuel
    end.

Definition get_index : M nat := fun index => Ret (index, index).
Definition set_index (j : nat) : M unit := fun _ => Ret (tt, j).

(** A computation that may panic ([None]). *)
Definition lift {A} (o : option A) : M A :=
  fun index => match o with Some a => Ret (a, index) | None => Panic end.

Definition out_of_fuel {A} : M A := fun _ => OutOfFuel.

Notation "x <- m ;; k" := (mbind m (fun x => k))
  (at level 61, m at next level, right associativity).
Notation "m ;;; k" := (mbind m (fun _ => k))
  (at level 61, right associativity).

(* ------------------------------------------------------------------ *)
(** ** [RequirementsIterator::next] *)

Section Iterator.

Variable text : str.

(** [self.text[..upto].chars().rev().next().is_some_and(|c| c == '\\')] *)
Definition continued_at (upto : nat) : M bool :=
  pre <- lift (slice text 0 upto);;
  mret (is_some_and (fun c => (c =? BACKSLASH)%N) (last_char pre)).

(** The inner loop "Eat lines until we see a non-continuation". *)
Fixpoint eat_lines (fuel : nat) (acc : str) : M str :=
  match fuel with
  | O => out_of_fuel
  | S fuel' =>
      index <- get_index;;
      rest <- lift (slice text index (length text));;
      match find_newline rest with
      | None => mret acc
      | Some (start, width) =>
          cont <- continued_at (index + start);;
          if cont then
            stop <- lift (usize_sub (index + start) 1);;
            seg <- lift (slice text index stop);;
            set_index (index + start + width);;;
            eat_lines fuel' (acc ++ seg)
          else
            seg <- lift (slice text index (index + start));;
            set_index (index + start + width);;;
            mret (acc ++ seg)
      end
  end.

Fixpoint next_fuel (fuel : nat) : M (option RequirementLine) :=
  match fuel with
  | O => out_of_fuel
  | S fuel' =>
      index <- get_index;;
      (* [self.text.len() - 1], in characters (see the header). *)
      last <- lift (usize_sub (length text) 1);;
      if index =? last then mret None else
      rest <- lift (slice text index (length text));;
      match find_newline rest with
      | None =>
          (* Parse the rest of the text. *)
          set_index last;;;
          if starts_with (trim_start rest) HASH then mret None
          else if is_empty (trim rest) then mret None
          else l <- lift (from_line (Borrowed rest));; mret (Some l)
      | Some (start, width) =>
          if starts_with (trim_start rest) HASH then
            set_index (index + start + width);;; next_fuel fuel'
          else
          seg <- lift (slice text index (index + start));;
          if is_empty (trim seg) then
            set_index (index + start + width);;; next_fuel fuel'
          else
          cont <- continued_at (index + start);;
          if cont then
            stop <- lift (usize_sub (index + start) 1);;
            first <- lift (slice text index stop);;
            set_index (index + start + width);;;
            joined <- eat_lines fuel' first;;
            l <- lift (from_line (Owned joined));;
            mret (Some l)
          else
            seg' <- lift (slice text index (index + start));;
            set_index (index + start + width);;;
            l <- lift (from_line (Borrowed seg'));;
            mret (Some l)
      end
  end.

(** One call of [next]: every recursion advances the index, so
    [length text + 1] rounds of fuel are enough (see [C10]). *)
Definition next : M (option RequirementLine) := next_fuel (S (length text)).

(** Pulling the iterator until it yields [None]. *)
Fixpoint collect_lines (fuel : nat) : M (list RequirementLine) :=
  match fuel with
  | O => out_of_fuel
  | S fuel' =>
      o <- next;;
      match o with
      | None => mret []
      | Some l => ls <- collect_lines fuel';; mret (l :: ls)
      end
  end.

Definition run {A} (m : M A) : outcome A :=
  match m 0 with
  | Ret (a, _) => Ret a
  | Panic => Panic
  | OutOfFuel => OutOfFuel
  end.

(** The logical lines of [RequirementsIterator::new(text)]. *)
Definition split_lines : outcome (list RequirementLine) :=
  run (collect_lines (S (length text))).

End Iterator.

(* ------------------------------------------------------------------ *)
(** ** [Requirements::from_str] *)

Inductive result (A E : Type) : Type :=
| Ok (a : A)
| Err (e : E).
Arguments Ok {A E} a.
Arguments Err {A E} e.

Section Builder.

(** The external PEP 508 parser [Requirement::from_str]. *)
Variable Requirement Pep508Error : Type.
Variable parse : str -> result Requirement Pep508Error.

Variable text : str.

(** [.map(|r| Requirement::from_str(r.as_str())).collect::<Result<Vec<_>, _>>()]:
    the iterator is pulled until it ends or the first [Err]. *)
Fixpoint collect_requirements (fuel : nat)
  : M (result (list Requirement) Pep508Error) :=
  match fuel with
  | O => out_of_fuel
  | S fuel' =>
      o <- next text;;
      match o with
      | None => mret (Ok [])
      | Some l =>
          s <- lift (as_str l);;
          match parse s with
          | Err e => mret (Err e)
          | Ok r =>
              rs <- collect_requirements fuel';;
              mret (match rs with Ok rs' => Ok (r :: rs') | Err e => Err e end)
          end
      end
  end.

Definition from_str : outcome (result (list Requirement) Pep508Error) :=
  run (collect_requirements (S (length text))).

End Builder.

Definition lines_of (t : str) : outcome (list str) :=
  match split_lines t with
  | Ret ls => Ret (map (fun l => cow_str (line l)) ls)
  | Panic => Panic
  | OutOfFuel => OutOfFuel
  end.

Definition nl : str := [LF].
Definition bs : str := [BACKSLASH].


(** Line-ending normalization: every ["\r\n"] pair and every bare ["\r"]
    becomes ["\n"]. *)
Fixpoint normalize_newlines (t : str) : str :=
  match t with
  | [] => []
  | c :: r =>
      if (c =? CR)%N then
        match r with
        | d :: r' =>
            if (d =? LF)%N then LF :: normalize_newlines r'
            else LF :: normalize_newlines r
        | [] => [LF]
        end
      else c :: normalize_newlines r
  end.

(** Line-ending normalization, and the simulation between a run on a text
    and a run on its normalization. *)
Abbreviation normalize := normalize_newlines.

Definition no_break (s : str) : Prop := Forall (fun c => c <> LF /\ c <> CR) s.

Local Abbreviation bs_last x := (is_some_and (fun c => (c =? BACKSLASH)%N) (last_char x)).

(** The simulation relation between a run on [t] and a run on
    [normalize t]: the rests correspond and so does the character before
    the cursor, as far as the continuation test can see. *)
Definition R (t u : str) (i j : nat) : Prop :=
  i <= length t /\ j <= length u /\ normalize (skipn i t) = skipn j u /\
  bs_last (firstn i t) = bs_last (firstn j u).

Definition R' (t u : str) (i j : nat) : Prop :=
  R t u i j \/ (i = length t - 1 /\ j = length u - 1).

(** [Iterator::collect::<Result<Vec<_>, _>>] over a finite sequence of
    results: the first [Err] is returned, otherwise all values in order. *)
Fixpoint collect_results {A E : Type} (rs : list (result A E)) : result (list A) E :=
  match rs with
  | [] => Ok []
  | Err e :: _ => Err e
  | Ok a :: rs' =>
      match collect_results rs' with
      | Ok l => Ok (a :: l)
      | Err e => Err e
      end
  end.

(** The outcome of a run displaced by [k] positions. *)
Definition shift {A} (k : nat) (o : outcome (A * nat)) : outcome (A * nat) :=
  match o with
  | Ret (a, j) => Ret (a, k + j)
  | Panic => Panic
  | OutOfFuel => OutOfFuel
  end.

(** A manifest of physical lines, each terminated by ["\n"]. *)
Definition join_lines (cs : list str) : str := concat (map (fun c => c ++ [LF]) cs).

(** A requirement line with [--hash] extras. *)
Definition hashed_line : str := text_of "flask==2.0 --hash=sha256:ab".
(** A manifest made of one comment line. *)
Definition trivia_manifest : str := text_of "# only comments" ++ nl.
(** A manifest with a continued line, a comment and a CR LF break. *)
Definition continued_manifest : str :=
  text_of "flask " ++ bs ++ nl ++ text_of "  ==2.0" ++ nl ++ text_of "# note" ++ nl ++
  text_of "attrs" ++ [CR; LF] ++ text_of "zipp".
(** Blank and comment physical lines. *)
Definition trivia_lines : list str := [text_of "# c"; text_of "   "; []].
(** A stand-in for the PEP 508 parser: the empty string is rejected. *)
Definition length_parser (s : str) : result nat unit :=
  if is_empty s then Err tt else Ok (length s).

(** The comment length the C2 claim describes, written from its words:
    only the first [#] is looked at; it cuts the line at its offset when
    the character just before it is whitespace; a [#] at offset 0, a [#]
    after a non-whitespace character, or no [#] at all leaves the full
    length. *)
Definition claim_comment_len (r : str) : nat :=
  match memchr_iter HASH r with
  | S q as p :: _ =>
      match nth_error r q with
      | Some c => if is_whitespace c then p else length r
      | None => length r
      end
  | _ => length r
  end.

(** Concrete inputs. *)
Definition comment_line : str := text_of "pkg==1.0  # a comment".
Definition chain_after_comment : str :=
  text_of "# c " ++ bs ++ nl ++ text_of "flask==2.0" ++ nl.

(* ------------------------------------------------------------------ *)
(** * Proofs *)

(** ** Unfolding equations of the monadic definitions *)

Ltac crush_eq :=
  cbv [mbind mret lift get_index set_index continued_at out_of_fuel];
  repeat (match goal with
  | |- context [match ?x with _ => _ end] =>
      lazymatch x with
      | context [match _ with _ => _ end] => fail
      | _ => destruct x eqn:?
      end
  end; cbn beta iota); try reflexivity.

Section Eqs.
Variable text : str.


Lemma eat_lines_eq : forall f acc i,
  eat_lines text (S f) acc i =
  match slice text i (length text) with
  | None => Panic
  | Some rest =>
    match find_newline rest with
    | None => Ret (acc, i)
    | Some (start, width) =>
       match slice text 0 (i + start) with
       | None => Panic
       | Some pre =>
         if is_some_and (fun c => (c =? BACKSLASH)%N) (last_char pre) then
           match usize_sub (i + start) 1 with
           | None => Panic
           | Some stop =>
             match slice text i stop with
             | None => Panic
             | Some seg => eat_lines text f (acc ++ seg) (i + start + width)
             end
           end
         else
           match slice text i (i + start) with
           | None => Panic
           | Some seg => Ret (acc ++ seg, i + start + width)
           end
       end
    end
  end.
Proof. intros. cbn [eat_lines]. crush_eq. Qed.

Lemma next_fuel_eq : forall f i,
  next_fuel text (S f) i =
  match usize_sub (length text) 1 with
  | None => Panic
  | Some last =>
    if i =? last then Ret (None, i) else
    match slice text i (length text) with
    | None => Panic
    | Some rest =>
      match find_newline rest with
      | None =>
          if starts_with (trim_start rest) HASH then Ret (None, last)
          else if is_empty (trim rest) then Ret (None, last)
          else match from_line (Borrowed rest) with
               | None => Panic
               | Some l => Ret (Some l, last)
               end
      | Some (start, width) =>
          if starts_with (trim_start rest) HASH then
            next_fuel text f (i + start + width)
          else
          match slice text i (i + start) with
          | None => Panic
          | Some seg =>
            if is_empty (trim seg) then next_fuel text f (i + start + width)
            else
            match slice text 0 (i + start) with
            | None => Panic
            | Some pre =>
              if is_some_and (fun c => (c =? BACKSLASH)%N) (last_char pre) then
                match usize_sub (i + start) 1 with
                | None => Panic
                | Some stop =>
                  match slice text i stop with
                  | None => Panic
                  | Some first =>
                    match eat_lines text f first (i + start + width) with
                    | Ret (joined, i') =>
                        match from_line (Owned joined) with
                        | None => Panic
                        | Some l => Ret (Some l, i')
                        end
                    | Panic => Panic
                    | OutOfFuel => OutOfFuel
                    end
                  end
                end
              else
                match from_line (Borrowed seg) with
                | None => Panic
                | Some l => Ret (Some l, i + start + width)
                end
            end
          end
      end
    end
  end.
Proof. intros. cbn [next_fuel]. crush_eq. Qed.
End Eqs.

Lemma collect_lines_eq : forall text f i,
  collect_lines text (S f) i =
  match next text i with
  | Ret (None, i') => Ret ([], i')
  | Ret (Some l, i') =>
      match collect_lines text f i' with
      | Ret (ls, i'') => Ret (l :: ls, i'')
      | Panic => Panic
      | OutOfFuel => OutOfFuel
      end
  | Panic => Panic
  | OutOfFuel => OutOfFuel
  end.
Proof. intros. cbn [collect_lines]. crush_eq. Qed.

Lemma collect_requirements_eq : forall Requirement Pep508Error parse text f i,
  collect_requirements Requirement Pep508Error parse text (S f) i =
  match next text i with
  | Ret (None, i') => Ret (Ok [], i')
  | Ret (Some l, i') =>
      match as_str l with
      | None => Panic
      | Some s =>
          match parse s with
          | Err e => Ret (Err e, i')
          | Ok r =>
              match collect_requirements Requirement Pep508Error parse text f i' with
              | Ret (Ok rs, i'') => Ret (Ok (r :: rs), i'')
              | Ret (Err e, i'') => Ret (Err e, i'')
              | Panic => Panic
              | OutOfFuel => OutOfFuel
              end
          end
      end
  | Panic => Panic
  | OutOfFuel => OutOfFuel
  end.
Proof. intros. cbn [collect_requirements]. crush_eq. Qed.

(** ** Slices, line breaks and fuel *)

Ltac split_goal :=
  repeat (match goal with
  | |- context [match ?x with _ => _ end] =>
      lazymatch x with
      | context [match _ with _ => _ end] => fail
      | context [eat_lines] => fail
      | context [next_fuel] => fail
      | _ => destruct x eqn:?
      end
  end; cbn beta iota; try subst).

Lemma slice_inv : forall t i j r,
  slice t i j = Some r -> i <= j /\ j <= length t /\ r = firstn (j - i) (skipn i t).
Proof.
  unfold slice; intros t i j r H.
  destruct (i <=? j) eqn:E1, (j <=? length t) eqn:E2; simpl in H; try discriminate.
  apply Nat.leb_le in E1, E2. inversion H. auto.
Qed.

Lemma slice_full_inv : forall t i r,
  slice t i (length t) = Some r -> i <= length t /\ r = skipn i t.
Proof.
  intros t i r H. apply slice_inv in H as (H1 & _ & ->).
  split; [assumption|]. apply firstn_all2. rewrite length_skipn. lia.
Qed.

Lemma slice_length : forall t i j r,
  slice t i j = Some r -> length r = j - i.
Proof.
  intros t i j r H. apply slice_inv in H as (H1 & H2 & ->).
  rewrite length_firstn, length_skipn. lia.
Qed.

Lemma memchr2_lt : forall a b r p,
  memchr2 a b r = Some p -> p < length r.
Proof.
  induction r as [|c r IH]; intros p H; simpl in H; [discriminate|].
  destruct ((c =? a)%N || (c =? b)%N); [inversion H; simpl; lia|].
  destruct (memchr2 a b r) eqn:E; simpl in H; [|discriminate].
  inversion H; subst. specialize (IH n eq_refl). simpl; lia.
Qed.

Lemma find_newline_bounds : forall r s w,
  find_newline r = Some (s, w) -> 1 <= w /\ s + w <= length r.
Proof.
  unfold find_newline; intros r s w H.
  destruct (memchr2 LF CR r) as [p|] eqn:E; [|discriminate].
  apply memchr2_lt in E.
  destruct (nth_error r (S p)) as [c|] eqn:E3.
  - assert (S p < length r) by (apply nth_error_Some; rewrite E3; discriminate).
    destruct (nth p r 0%N =? LF)%N, (nth p r 0%N =? CR)%N, (c =? LF)%N;
      simpl in H; inversion H; subst; lia.
  - destruct (nth p r 0%N =? LF)%N, (nth p r 0%N =? CR)%N;
      simpl in H; inversion H; subst; lia.
Qed.

Ltac facts :=
  repeat match goal with
  | H : slice ?t ?i (length ?t) = Some ?r |- _ =>
      apply slice_full_inv in H as [? ?]; subst r
  | H : find_newline (skipn ?i ?t) = Some (?s, ?w) |- _ =>
      let B := fresh "B" in
      pose proof (find_newline_bounds _ _ _ H) as B; rewrite length_skipn in B;
      revert H
  end; intros.

Section Fuel.
Variable text : str.

Lemma eat_lines_enough : forall f acc i,
  length text - i < f -> eat_lines text f acc i <> OutOfFuel.
Proof.
  induction f as [|f IH]; intros acc i Hf; [lia|].
  rewrite eat_lines_eq. split_goal; try discriminate.
  facts. apply IH. lia.
Qed.


Lemma next_fuel_enough : forall f i,
  length text - i < f -> next_fuel text f i <> OutOfFuel.
Proof.
  induction f as [|f IH]; intros i Hf; [lia|].
  rewrite next_fuel_eq. split_goal; try discriminate; facts;
    try (apply IH; lia).
  destruct (eat_lines text f _ _) as [[? ?]| |] eqn:E; split_goal; try discriminate.
  exfalso. revert E. apply eat_lines_enough. lia.
Qed.

Lemma eat_lines_index : forall f acc i r i',
  eat_lines text f acc i = Ret (r, i') -> i <= i' <= length text.
Proof.
  induction f as [|f IH]; intros acc i r i' H; [discriminate|].
  rewrite eat_lines_eq in H. revert H. split_goal; intro H; try discriminate;
    facts; try (inversion H; subst; lia).
  apply IH in H. lia.
Qed.

Lemma trim_nonempty : forall r, is_empty (trim r) = false -> r <> [].
Proof. intros r H ->. discriminate. Qed.

Lemma next_fuel_advance : forall f i l i',
  next_fuel text f i = Ret (Some l, i') -> i < i' <= length text.
Proof.
  induction f as [|f IH]; intros i l i' H; [discriminate|].
  rewrite next_fuel_eq in H. revert H. split_goal; intro H; try discriminate;
    facts; try (inversion H; subst; lia); try (apply IH in H; lia).
  all: try (revert H; destruct (eat_lines text f _ _) as [[? ?]| |] eqn:E; split_goal;
    intro H; try discriminate; inversion H; subst; apply eat_lines_index in E; lia).
  (* the unterminated remainder *)
  all: inversion H; subst;
    repeat match goal with
    | Hb : is_empty (trim _) = false |- _ => apply trim_nonempty in Hb
    | Hb : (_ =? _) = false |- _ => apply Nat.eqb_neq in Hb
    | Ho : usize_sub _ _ = Some _ |- _ =>
        unfold usize_sub in Ho; destruct (1 <=? length text) eqn:?;
        inversion Ho; subst; clear Ho
    | Hb : (_ <=? _) = true |- _ => apply Nat.leb_le in Hb
    end;
    destruct (skipn i text) eqn:Es; try congruence;
    assert (length (skipn i text) >= 1) by (rewrite Es; simpl; lia);
    rewrite length_skipn in *; lia.
Qed.

Lemma next_advance : forall i l i',
  next text i = Ret (Some l, i') -> i < i' <= length text.
Proof. intros i l i'. apply next_fuel_advance. Qed.

Lemma next_total : forall i, next text i <> OutOfFuel.
Proof. intros i. apply next_fuel_enough. lia. Qed.

Lemma collect_lines_enough : forall f i,
  length text - i < f -> collect_lines text f i <> OutOfFuel.
Proof.
  induction f as [|f IH]; intros i Hf; [lia|].
  rewrite collect_lines_eq.
  destruct (next text i) as [[[l|] i']| |] eqn:E; try discriminate.
  - apply next_advance in E.
    destruct (collect_lines text f i') as [[? ?]| |] eqn:E2; try discriminate.
    exfalso; revert E2; apply IH; lia.
  - exfalso; revert E; apply next_total.
Qed.

Lemma eat_lines_S : forall f acc i,
  eat_lines text f acc i <> OutOfFuel ->
  eat_lines text (S f) acc i = eat_lines text f acc i.
Proof.
  induction f as [|f IH]; intros acc i.
  - intro H; exfalso; apply H; reflexivity.
  - rewrite (eat_lines_eq text (S f)), (eat_lines_eq text f).
    split_goal; auto.
Qed.

Lemma next_fuel_S : forall f i,
  next_fuel text f i <> OutOfFuel ->
  next_fuel text (S f) i = next_fuel text f i.
Proof.
  induction f as [|f IH]; intros i.
  - intro H; exfalso; apply H; reflexivity.
  - rewrite (next_fuel_eq text (S f)), (next_fuel_eq text f).
    split_goal; auto.
    all: destruct (eat_lines text f _ _) as [[? ?]| |] eqn:E;
      [rewrite (eat_lines_S _ _ _ ltac:(rewrite E; discriminate)), E; reflexivity
      | rewrite (eat_lines_S _ _ _ ltac:(rewrite E; discriminate)), E; reflexivity
      | intro H; exfalso; apply H; reflexivity].
Qed.

Lemma next_fuel_ge : forall f f' i,
  f <= f' -> next_fuel text f i <> OutOfFuel ->
  next_fuel text f' i = next_fuel text f i.
Proof.
  intros f f' i Hle H. induction Hle as [|f' Hle IHle]; [reflexivity|].
  rewrite next_fuel_S; [assumption|]. rewrite IHle. assumption.
Qed.

(** [next] computed with any sufficient fuel. *)
Lemma next_fuel_next : forall f i,
  length text - i < f -> next_fuel text f i = next text i.
Proof.
  intros f i Hf. unfold next.
  destruct (Nat.le_ge_cases f (S (length text))) as [Hle|Hle].
  - symmetry. apply next_fuel_ge; [assumption|]. apply next_fuel_enough; assumption.
  - apply next_fuel_ge; [assumption|]. apply next_fuel_enough. lia.
Qed.

End Fuel.

(** ** Lemmas on the trivia stripper *)

Lemma memchr_iter_from_spec : forall c s i p,
  In p (memchr_iter_from c i s) <-> i <= p /\ nth_error s (p - i) = Some c.
Proof.
  induction s as [|d s IH]; intros i p; simpl.
  - split; [tauto|]. intros [_ H]. destruct (p - i); discriminate.
  - destruct (d =? c)%N eqn:E.
    + apply N.eqb_eq in E; subst d. simpl. rewrite IH. split.
      * intros [<-|[H1 H2]]; [rewrite Nat.sub_diag; split; auto|].
        split; [lia|]. replace (p - i) with (S (p - S i)) by lia. exact H2.
      * intros [H1 H2]. destruct (Nat.eq_dec p i) as [->|Hne]; [left; reflexivity|].
        right. split; [lia|]. replace (p - i) with (S (p - S i)) in H2 by lia. exact H2.
    + rewrite IH. split.
      * intros [H1 H2]. split; [lia|]. replace (p - i) with (S (p - S i)) by lia. exact H2.
      * intros [H1 H2]. destruct (Nat.eq_dec p i) as [->|Hne].
        -- rewrite Nat.sub_diag in H2. simpl in H2. inversion H2; subst.
           rewrite N.eqb_refl in E. discriminate.
        -- split; [lia|]. replace (p - i) with (S (p - S i)) in H2 by lia. exact H2.
Qed.

Lemma memchr_iter_spec : forall c s p,
  In p (memchr_iter c s) <-> nth_error s p = Some c.
Proof.
  intros c s p. unfold memchr_iter. rewrite memchr_iter_from_spec.
  rewrite Nat.sub_0_r. split; [tauto|]. intros H; split; [lia|exact H].
Qed.

Lemma slice_prefix_full : forall r, slice r 0 (length r) = Some r.
Proof.
  intros r. unfold slice. rewrite Nat.leb_refl. simpl.
  rewrite Nat.sub_0_r. f_equal. apply firstn_all.
Qed.

Lemma comment_loop_bound : forall r ps len n,
  (forall p, In p ps -> p < length r) -> len <= length r ->
  comment_loop r ps len = Some n -> n <= length r.
Proof.
  induction ps as [|q ps IH]; intros len n Hps Hlen H; simpl in H.
  - inversion H; subst; assumption.
  - destruct (comment_test r len q) as [[|]|]; try discriminate.
    + inversion H; subst. apply Nat.lt_le_incl, Hps. left; reflexivity.
    + apply (IH len); auto. intros p Hp; apply Hps; right; exact Hp.
Qed.

Lemma strip_comments_bound : forall r n,
  strip_comments r = Some n -> n <= length r.
Proof.
  unfold strip_comments. intros r n H. rewrite slice_prefix_full in H.
  apply (comment_loop_bound r (memchr_iter HASH r) (length r)); auto.
  intros p Hp. apply memchr_iter_spec in Hp.
  apply nth_error_Some. rewrite Hp. discriminate.
Qed.

Lemma find_from_some : forall pat s i k,
  find_from pat i s = Some k ->
  i <= k /\ is_prefix pat (skipn (k - i) s) = true /\
  forall j, j < k - i -> is_prefix pat (skipn j s) = false.
Proof.
  induction s as [|c s IH]; intros i k H; simpl in H.
  - destruct (is_prefix pat []) eqn:E; inversion H; subst.
    rewrite Nat.sub_diag. split; [lia|]. split; [exact E|]. intros j Hj; lia.
  - destruct (is_prefix pat (c :: s)) eqn:E.
    + inversion H; subst. rewrite Nat.sub_diag. split; [lia|].
      split; [exact E|]. intros j Hj; lia.
    + destruct (IH (S i) k H) as (H1 & H2 & H3).
      split; [lia|].
      replace (k - i) with (S (k - S i)) by lia. split; [exact H2|].
      intros [|j] Hj; [exact E|]. simpl. apply H3. lia.
Qed.

Lemma find_from_none : forall pat s i,
  pat <> [] -> find_from pat i s = None ->
  forall j, is_prefix pat (skipn j s) = false.
Proof.
  induction s as [|c s IH]; intros i Hp H j; simpl in H.
  - destruct pat; [congruence|]. destruct j; reflexivity.
  - destruct (is_prefix pat (c :: s)) eqn:E; [discriminate|].
    destruct j; [exact E|]. simpl. apply (IH (S i)); assumption.
Qed.

(** ** Lemmas on the splitter *)

Lemma slice_seg : forall t i s,
  i + s <= length t -> slice t i (i + s) = Some (firstn s (skipn i t)).
Proof.
  intros t i s H. unfold slice.
  destruct (i <=? i + s) eqn:E1; [|apply Nat.leb_gt in E1; lia].
  destruct (i + s <=? length t) eqn:E2; [|apply Nat.leb_gt in E2; lia].
  simpl. do 2 f_equal. lia.
Qed.

Lemma slice_tail : forall t i,
  i <= length t -> slice t i (length t) = Some (skipn i t).
Proof.
  intros t i H. replace (length t) with (i + (length t - i)) at 1 by lia.
  rewrite slice_seg by lia. f_equal. apply firstn_all2. rewrite length_skipn. lia.
Qed.

(** A prefix whose leading whitespace is followed by a character keeps
    that character at the head of the whole text. *)
Lemma trim_start_firstn : forall s r,
  trim_start (firstn s r) = [] \/
  exists u, trim_start r = trim_start (firstn s r) ++ u.
Proof.
  induction s as [|s IH]; intros r; [left; reflexivity|].
  destruct r as [|c r]; [left; reflexivity|]. simpl.
  destruct (is_whitespace c); [apply IH|].
  right. exists (skipn s r). simpl. f_equal. symmetry. apply firstn_skipn.
Qed.

Lemma starts_with_firstn : forall s r,
  starts_with (trim_start (firstn s r)) HASH = true ->
  starts_with (trim_start r) HASH = true.
Proof.
  intros s r H. destruct (trim_start_firstn s r) as [E|[u E]].
  - rewrite E in H. discriminate.
  - rewrite E. destruct (trim_start (firstn s r)); [discriminate|exact H].
Qed.

Lemma usize_sub_len : forall t : str,
  t <> [] -> usize_sub (length t) 1 = Some (length t - 1).
Proof.
  intros t H. unfold usize_sub. destruct t; [congruence|]. reflexivity.
Qed.

Lemma find_newline_nonempty : forall r p, find_newline r = Some p -> r <> [].
Proof. intros r p H ->. discriminate. Qed.

(** Line-ending normalization lemmas. *)
Lemma normalize_nobreak_app : forall seg x,
  no_break seg -> normalize (seg ++ x) = seg ++ normalize x.
Proof.
  induction seg as [|c seg IH]; intros x H; [reflexivity|].
  inversion H as [|? ? [H1 H2] H3]; subst. simpl.
  destruct (c =? CR)%N eqn:E; [apply N.eqb_eq in E; congruence|].
  f_equal. apply IH, H3.
Qed.

Lemma normalize_nobreak : forall seg, no_break seg -> normalize seg = seg.
Proof.
  intros seg H. rewrite <- (app_nil_r seg) at 1. rewrite normalize_nobreak_app by exact H.
  apply app_nil_r.
Qed.

Lemma memchr2_none : forall r, memchr2 LF CR r = None -> no_break r.
Proof.
  induction r as [|c r IH]; intros H; simpl in H; constructor.
  - destruct (c =? LF)%N eqn:E1, (c =? CR)%N eqn:E2; simpl in H; try discriminate.
    apply N.eqb_neq in E1, E2. split; assumption.
  - destruct ((c =? LF)%N || (c =? CR)%N); [discriminate|].
    destruct (memchr2 LF CR r); [discriminate|]. apply IH; reflexivity.
Qed.

Lemma memchr2_split : forall r p,
  memchr2 LF CR r = Some p ->
  exists seg c rest, r = seg ++ c :: rest /\ length seg = p /\ no_break seg /\
    (c = LF \/ c = CR).
Proof.
  induction r as [|c r IH]; intros p H; simpl in H; [discriminate|].
  destruct (c =? LF)%N eqn:E1, (c =? CR)%N eqn:E2; simpl in H.
  - inversion H; subst. exists [], c, r. apply N.eqb_eq in E1. repeat split; auto. constructor.
  - inversion H; subst. exists [], c, r. apply N.eqb_eq in E1. repeat split; auto. constructor.
  - inversion H; subst. exists [], c, r. apply N.eqb_eq in E2. repeat split; auto. constructor.
  - destruct (memchr2 LF CR r) as [q|] eqn:E; simpl in H; [|discriminate].
    inversion H; subst.
    destruct (IH q eq_refl) as (seg & d & rest & -> & Hl & Hn & Hd).
    exists (c :: seg), d, rest. apply N.eqb_neq in E1, E2.
    repeat split; auto. simpl; lia. constructor; auto.
Qed.

Lemma find_newline_none : forall r, find_newline r = None -> no_break r.
Proof.
  unfold find_newline. intros r H.
  destruct (memchr2 LF CR r) eqn:E; [|apply memchr2_none, E].
  destruct (_ =? LF)%N; [discriminate|].
  destruct (_ && _); discriminate.
Qed.

Lemma nth_app_len : forall (seg rest : str) d k,
  nth (length seg + k) (seg ++ rest) d = nth k rest d.
Proof. induction seg; intros; simpl; auto. Qed.

Lemma nth_error_app_len : forall (seg rest : str) k,
  nth_error (seg ++ rest) (length seg + k) = nth_error rest k.
Proof. induction seg; intros; simpl; auto. Qed.

(** A line break splits the text into the physical line, the break and the
    rest; the break normalizes to a single ["\n"]. *)
Lemma find_newline_split : forall r s w,
  find_newline r = Some (s, w) ->
  exists seg brk rest, r = seg ++ brk ++ rest /\ length seg = s /\
    length brk = w /\ no_break seg /\
    normalize (brk ++ rest) = LF :: normalize rest /\
    (last_char brk = Some LF \/ last_char brk = Some CR).
Proof.
  unfold find_newline. intros r s w H.
  destruct (memchr2 LF CR r) as [p|] eqn:E; [|discriminate].
  destruct (memchr2_split _ _ E) as (seg & c & rest & -> & Hl & Hn & Hc).
  subst p.
  assert (N1 : nth (length seg) (seg ++ c :: rest) 0%N = c).
  { rewrite <- (Nat.add_0_r (length seg)) at 1. rewrite nth_app_len. reflexivity. }
  assert (N2 : nth_error (seg ++ c :: rest) (S (length seg)) = nth_error rest 0).
  { rewrite <- Nat.add_1_r, nth_error_app_len. reflexivity. }
  rewrite N1, N2 in H.
  destruct Hc as [Hc|Hc]; subst c.
  - simpl in H. inversion H; subst.
    exists seg, [LF], rest. repeat split; auto; try (simpl; lia).
  - simpl in H. destruct rest as [|d rest].
    + inversion H; subst. exists seg, [CR], []. repeat split; auto; try (simpl; lia).
    + destruct (d =? LF)%N eqn:Ed; simpl in H; inversion H; subst.
      * apply N.eqb_eq in Ed; subst d.
        exists seg, [CR; LF], rest. repeat split; auto; try (simpl; lia).
      * exists seg, [CR], (d :: rest). repeat split; auto; try (simpl; lia).
        simpl. rewrite Ed. reflexivity.
Qed.

Lemma find_newline_lf : forall seg y,
  no_break seg -> find_newline (seg ++ LF :: y) = Some (length seg, 1).
Proof.
  intros seg y H. unfold find_newline.
  assert (E : memchr2 LF CR (seg ++ LF :: y) = Some (length seg)).
  { induction seg as [|c seg IH]; [reflexivity|].
    inversion H as [|? ? [H1 H2] H3]; subst. simpl.
    apply N.eqb_neq in H1, H2. rewrite H1, H2. simpl. rewrite (IH H3). reflexivity. }
  rewrite E. replace (length seg) with (length seg + 0) at 1 by lia.
  rewrite nth_app_len. reflexivity.
Qed.

Lemma find_newline_normalize_none : forall r,
  find_newline r = None -> find_newline (normalize r) = None /\ normalize r = r.
Proof.
  intros r H. rewrite normalize_nobreak by (apply find_newline_none, H). auto.
Qed.

Lemma normalize_ind_len : forall (P : str -> Prop),
  (forall x, (forall y, length y < length x -> P y) -> P x) -> forall x, P x.
Proof.
  intros P H x. remember (length x) as n eqn:En.
  revert x En. induction n as [n IHn] using lt_wf_ind.
  intros x ->. apply H. intros y Hy. apply (IHn (length y)); auto.
Qed.

Lemma trim_start_normalize : forall x,
  trim_start (normalize x) = normalize (trim_start x).
Proof.
  apply normalize_ind_len. intros [|c r] IH; [reflexivity|].
  destruct (c =? CR)%N eqn:Ec.
  - apply N.eqb_eq in Ec; subst c.
    destruct r as [|d r']; [reflexivity|].
    destruct (d =? LF)%N eqn:Ed.
    + apply N.eqb_eq in Ed; subst d.
      change (trim_start (normalize r') = normalize (trim_start r')).
      apply IH. simpl; lia.
    + assert (E : normalize (CR :: d :: r') = LF :: normalize (d :: r'))
        by (simpl; rewrite Ed; reflexivity).
      rewrite E.
      change (trim_start (normalize (d :: r')) = normalize (trim_start (d :: r'))).
      apply IH. simpl; lia.
  - assert (E : normalize (c :: r) = c :: normalize r) by (simpl; rewrite Ec; reflexivity).
    rewrite E. simpl. destruct (is_whitespace c).
    + apply IH. simpl; lia.
    + symmetry. exact E.
Qed.

Lemma starts_with_hash_normalize : forall y,
  starts_with (normalize y) HASH = starts_with y HASH.
Proof.
  intros [|c r]; [reflexivity|]. simpl.
  destruct (c =? CR)%N eqn:Ec.
  - apply N.eqb_eq in Ec; subst c. destruct r as [|d r]; [reflexivity|].
    destruct (d =? LF)%N; reflexivity.
  - reflexivity.
Qed.

Lemma normalize_length_ge : forall x, length x <= 2 * length (normalize x).
Proof.
  apply normalize_ind_len. intros [|c r] IH; [simpl; lia|].
  destruct (c =? CR)%N eqn:Ec.
  - destruct r as [|d r']; [simpl; rewrite Ec; simpl; lia|].
    destruct (d =? LF)%N eqn:Ed.
    + assert (E : normalize (c :: d :: r') = LF :: normalize r')
        by (simpl; rewrite Ec, Ed; reflexivity).
      rewrite E. specialize (IH r' ltac:(simpl; lia)). simpl. lia.
    + assert (E : normalize (c :: d :: r') = LF :: normalize (d :: r'))
        by (simpl; rewrite Ec, Ed; reflexivity).
      rewrite E. specialize (IH (d :: r') ltac:(simpl; lia)).
      simpl in *. lia.
  - assert (E : normalize (c :: r) = c :: normalize r) by (simpl; rewrite Ec; reflexivity).
    rewrite E. specialize (IH r ltac:(simpl; lia)). simpl. lia.
Qed.

Lemma normalize_length_one : forall r,
  length (normalize r) = 1 -> length r = 1 \/ r = [CR; LF].
Proof.
  intros r H. pose proof (normalize_length_ge r) as G. rewrite H in G.
  destruct r as [|c [|d [|e r]]]; simpl in G; try lia.
  - discriminate.
  - left; reflexivity.
  - simpl in H. destruct (c =? CR)%N eqn:Ec, (d =? LF)%N eqn:Ed, (d =? CR)%N;
      simpl in H; try lia.
    all: apply N.eqb_eq in Ec, Ed; subst; right; reflexivity.
Qed.

Lemma normalize_single : forall r, length r = 1 -> length (normalize r) = 1.
Proof.
  intros [|c [|d r]] H; try discriminate. simpl. destruct (c =? CR)%N; reflexivity.
Qed.

Lemma normalize_nil : forall r, normalize r = [] -> r = [].
Proof.
  intros [|c r] H; [reflexivity|]. simpl in H.
  destruct (c =? CR)%N; [destruct r as [|d r]; [|destruct (d =? LF)%N]|]; discriminate.
Qed.

Lemma last_char_app : forall a x : str, x <> [] -> last_char (a ++ x) = last_char x.
Proof.
  intros a x H. unfold last_char. rewrite rev_app_distr.
  destruct (rev x) eqn:E; [|reflexivity].
  apply (f_equal (@rev char)) in E. rewrite rev_involutive in E. simpl in E. congruence.
Qed.

Lemma firstn_skipn_app : forall (t x y : str) i,
  skipn i t = x ++ y -> i <= length t -> firstn (i + length x) t = firstn i t ++ x.
Proof.
  intros t x y i H Hi.
  rewrite <- (firstn_skipn i t) at 1. rewrite H.
  rewrite firstn_app. rewrite length_firstn.
  replace (min i (length t)) with i by lia.
  rewrite firstn_all2 by (rewrite length_firstn; lia).
  replace (i + length x - i) with (length x) by lia.
  f_equal. rewrite firstn_app, Nat.sub_diag. simpl.
  rewrite app_nil_r. apply firstn_all.
Qed.


Lemma firstn_len_app : forall x y : str, firstn (length x) (x ++ y) = x.
Proof.
  intros x y. rewrite firstn_app, Nat.sub_diag, firstn_all. simpl. apply app_nil_r.
Qed.

Lemma firstn_app_le : forall (x y : str) n,
  n <= length x -> firstn n (x ++ y) = firstn n x.
Proof.
  intros x y n H. rewrite firstn_app. replace (n - length x) with 0 by lia.
  simpl. apply app_nil_r.
Qed.

Lemma skipn_after : forall (t x y : str) i,
  skipn i t = x ++ y -> skipn (i + length x) t = y.
Proof.
  intros t x y i H. rewrite Nat.add_comm, <- skipn_skipn, H, skipn_app, skipn_all,
    Nat.sub_diag. reflexivity.
Qed.

Lemma R_step : forall t u i j seg brk rest,
  R t u i j -> skipn i t = seg ++ brk ++ rest -> no_break seg ->
  normalize (brk ++ rest) = LF :: normalize rest ->
  (last_char brk = Some LF \/ last_char brk = Some CR) ->
  R t u (i + length seg + length brk) (j + length seg + 1).
Proof.
  intros t u i j seg brk rest (Hi & Hj & Hn & Hb) Hr Hnb Hbrk Hlast.
  assert (Hu : skipn j u = seg ++ [LF] ++ normalize rest).
  { rewrite <- Hn, Hr, normalize_nobreak_app, Hbrk by exact Hnb. reflexivity. }
  assert (Lt : length (skipn i t) = length seg + length brk + length rest)
    by (rewrite Hr, !length_app; lia).
  assert (Lu : length (skipn j u) = length seg + 1 + length (normalize rest))
    by (rewrite Hu, !length_app; simpl; lia).
  rewrite length_skipn in Lt, Lu.
  assert (Hbne : brk <> []) by (intros ->; destruct Hlast; discriminate).
  split; [lia|]. split; [lia|]. split.
  - rewrite <- !Nat.add_assoc.
    replace (length seg + length brk) with (length (seg ++ brk)) by apply length_app.
    replace (length seg + 1) with (length (seg ++ [LF])) by (rewrite length_app; reflexivity).
    rewrite (skipn_after t (seg ++ brk) rest) by (rewrite <- app_assoc; exact Hr).
    rewrite (skipn_after u (seg ++ [LF]) (normalize rest)) by (rewrite <- app_assoc; exact Hu).
    reflexivity.
  - rewrite <- !Nat.add_assoc.
    replace (length seg + length brk) with (length (seg ++ brk)) by apply length_app.
    replace (length seg + 1) with (length (seg ++ [LF])) by (rewrite length_app; reflexivity).
    rewrite (firstn_skipn_app t (seg ++ brk) rest i) by first [rewrite <- app_assoc; assumption | lia].
    rewrite (firstn_skipn_app u (seg ++ [LF]) (normalize rest) j) by first [rewrite <- app_assoc; assumption | lia].
    rewrite !app_assoc, !last_char_app by (congruence || discriminate).
    destruct Hlast as [-> | ->]; reflexivity.
Qed.

Lemma slice_prefix : forall (t : str) n, n <= length t -> slice t 0 n = Some (firstn n t).
Proof. intros t n H. apply (slice_seg t 0 n H). Qed.

Lemma bs_last_seg : forall t u i j seg y z,
  R t u i j -> skipn i t = seg ++ y -> skipn j u = seg ++ z ->
  bs_last (firstn (i + length seg) t) = bs_last (firstn (j + length seg) u).
Proof.
  intros t u i j seg y z (Hi & Hj & _ & Hb) Ht Hu.
  destruct seg as [|c seg'].
  - simpl. rewrite !Nat.add_0_r. exact Hb.
  - rewrite (firstn_skipn_app t _ y i Ht Hi), (firstn_skipn_app u _ z j Hu Hj).
    rewrite !last_char_app by discriminate. reflexivity.
Qed.

Lemma eat_sim : forall t f g acc i j,
  R t (normalize t) i j -> length t - i < f -> length (normalize t) - j < g ->
  match eat_lines t f acc i, eat_lines (normalize t) g acc j with
  | Ret (a, i'), Ret (b, j') => a = b /\ R t (normalize t) i' j'
  | Panic, Panic => True
  | _, _ => False
  end.
Proof.
  intros t. induction f as [|f IH]; intros g acc i j HR Hf Hg; [lia|].
  destruct g as [|g]; [lia|].
  rewrite !eat_lines_eq.
  pose proof HR as (Hi & Hj & Hn & Hb).
  rewrite (slice_tail t i Hi), (slice_tail (normalize t) j Hj), <- Hn.
  destruct (find_newline (skipn i t)) as [[s w]|] eqn:F.
  2: { destruct (find_newline_normalize_none _ F) as [F' _]. rewrite F'.
       split; [reflexivity|exact HR]. }
  destruct (find_newline_split _ _ _ F) as (seg & brk & rest & Hr & Hs & Hw & Hnb & Hbrk & Hlast).
  subst s w.
  assert (Hu : normalize (skipn i t) = seg ++ LF :: normalize rest)
    by (rewrite Hr, normalize_nobreak_app, Hbrk by exact Hnb; reflexivity).
  rewrite Hu, find_newline_lf by exact Hnb.
  assert (Lt : length seg + length brk <= length t - i)
    by (rewrite <- length_skipn, Hr, !length_app; lia).
  assert (Lu : length seg + 1 <= length (normalize t) - j)
    by (rewrite <- length_skipn, <- Hn, Hu, length_app; simpl; lia).
  assert (Hu' : skipn j (normalize t) = seg ++ LF :: normalize rest) by (rewrite <- Hn; exact Hu).
  rewrite (slice_prefix t (i + length seg)) by lia.
  rewrite (slice_prefix (normalize t) (j + length seg)) by lia.
  pose proof (R_step _ _ _ _ _ _ _ HR Hr Hnb Hbrk Hlast) as HR'.
  rewrite <- (bs_last_seg t (normalize t) i j seg (brk ++ rest) (LF :: normalize rest) HR Hr Hu').
  destruct (bs_last (firstn (i + length seg) t)) eqn:Ec.
  - (* a continued line *)
    assert (Ec' : bs_last (firstn (j + length seg) (normalize t)) = true).
    { rewrite <- (bs_last_seg t (normalize t) i j seg (brk ++ rest) (LF :: normalize rest) HR Hr Hu').
      exact Ec. }
    assert (P1 : i + length seg <> 0) by (intros E0; rewrite E0 in Ec; discriminate).
    assert (P2 : j + length seg <> 0) by (intros E0; rewrite E0 in Ec'; discriminate).
    unfold usize_sub.
    replace (1 <=? i + length seg) with true by (symmetry; apply Nat.leb_le; lia).
    replace (1 <=? j + length seg) with true by (symmetry; apply Nat.leb_le; lia).
    destruct seg as [|c seg'] eqn:Eseg.
    + simpl length in *. unfold slice.
      replace (i <=? i + 0 - 1) with false by (symmetry; apply Nat.leb_gt; lia).
      replace (j <=? j + 0 - 1) with false by (symmetry; apply Nat.leb_gt; lia).
      exact I.
    + assert (Ls : length seg >= 1) by (rewrite Eseg; simpl; lia). rewrite <- Eseg in *.
      replace (i + length seg - 1) with (i + (length seg - 1)) by lia.
      replace (j + length seg - 1) with (j + (length seg - 1)) by lia.
      rewrite (slice_seg t i) by lia. rewrite (slice_seg (normalize t) j) by lia.
      rewrite Hr, Hu', !firstn_app_le by lia.
      apply IH; [exact HR' | lia | lia].
  - rewrite (slice_seg t i) by lia. rewrite (slice_seg (normalize t) j) by lia.
    rewrite Hr, Hu', !firstn_len_app.
    split; [reflexivity | exact HR'].
Qed.

Lemma normalize_not_nil : forall t : str, t <> [] -> normalize t <> [].
Proof. intros t H E. apply H, normalize_nil, E. Qed.

Lemma next_sim : forall t f g i j,
  R' t (normalize t) i j -> length t - i < f -> length (normalize t) - j < g ->
  match next_fuel t f i, next_fuel (normalize t) g j with
  | Ret (a, i'), Ret (b, j') => a = b /\ R' t (normalize t) i' j'
  | Panic, Panic => True
  | _, _ => False
  end.
Proof.
  intros t. induction f as [|f IH]; intros g i j HR Hf Hg; [lia|].
  destruct g as [|g]; [lia|].
  rewrite !next_fuel_eq.
  destruct t as [|c0 t0] eqn:Et; [exact I|].
  rewrite <- Et in *.
  assert (Tn : t <> []) by (rewrite Et; discriminate).
  pose proof (normalize_not_nil t Tn) as Un.
  rewrite (usize_sub_len t Tn), (usize_sub_len (normalize t) Un).
  destruct HR as [HR | [-> ->]].
  2: { rewrite !Nat.eqb_refl. split; [reflexivity | right; split; reflexivity]. }
  pose proof HR as (Hi & Hj & Hn & Hb).
  assert (Lt : 1 <= length t) by (destruct t; [congruence | simpl; lia]).
  assert (Lu1 : 1 <= length (normalize t))
    by (destruct (normalize t); [congruence | simpl; lia]).
  destruct (Nat.eqb_spec i (length t - 1)) as [Ei|Ei].
  { assert (L1 : length (skipn i t) = 1) by (rewrite length_skipn; lia).
    pose proof (normalize_single _ L1) as L2. rewrite Hn, length_skipn in L2.
    replace (j =? length (normalize t) - 1) with true by (symmetry; apply Nat.eqb_eq; lia).
    split; [reflexivity | left; exact HR]. }
  destruct (Nat.eqb_spec j (length (normalize t) - 1)) as [Ej|Ej].
  { (* the normalized text is at its last character, the original at a CR LF pair *)
    assert (L1 : length (normalize (skipn i t)) = 1) by (rewrite Hn, length_skipn; lia).
    apply normalize_length_one in L1 as [L1|L1]; [rewrite length_skipn in L1; lia|].
    assert (L2 : length t = i + 2)
      by (pose proof (f_equal (@length _) L1) as E; rewrite length_skipn in E; simpl in E; lia).
    rewrite (slice_tail t i Hi), L1.
    replace (find_newline [CR; LF]) with (Some (0, 2)) by reflexivity.
    replace (starts_with (trim_start [CR; LF]) HASH) with false by reflexivity.
    replace (i + 0) with (i + 0) by reflexivity.
    rewrite (slice_seg t i 0) by lia.
    replace (is_empty (trim (firstn 0 (skipn i t)))) with true by reflexivity.
    destruct f as [|f]; [lia|].
    rewrite next_fuel_eq, (usize_sub_len t Tn).
    replace (i + 0 + 2 =? length t - 1) with false by (symmetry; apply Nat.eqb_neq; lia).
    replace (i + 0 + 2) with (length t) by lia.
    rewrite (slice_tail t (length t) (le_n _)), skipn_all.
    replace (find_newline []) with (@None (nat * nat)) by reflexivity.
    replace (starts_with (trim_start []) HASH) with false by reflexivity.
    replace (is_empty (trim [])) with true by reflexivity.
    split; [reflexivity | right; split; [reflexivity | exact Ej]]. }
  rewrite (slice_tail t i Hi), (slice_tail (normalize t) j Hj), <- Hn.
  rewrite trim_start_normalize, starts_with_hash_normalize.
  destruct (find_newline (skipn i t)) as [[s w]|] eqn:F.
  2: { destruct (find_newline_normalize_none _ F) as [F' Hid]. rewrite F', Hid.
       destruct (starts_with (trim_start (skipn i t)) HASH);
         [split; [reflexivity | right; split; reflexivity]|].
       destruct (is_empty (trim (skipn i t)));
         [split; [reflexivity | right; split; reflexivity]|].
       destruct (from_line (Borrowed (skipn i t)));
         [split; [reflexivity | right; split; reflexivity] | exact I]. }
  destruct (find_newline_split _ _ _ F) as (seg & brk & rest & Hr & Hs & Hw & Hnb & Hbrk & Hlast).
  subst s w.
  assert (Hu : normalize (skipn i t) = seg ++ LF :: normalize rest)
    by (rewrite Hr, normalize_nobreak_app, Hbrk by exact Hnb; reflexivity).
  rewrite Hu, find_newline_lf by exact Hnb.
  assert (Lti : length seg + length brk <= length t - i)
    by (rewrite <- length_skipn, Hr, !length_app; lia).
  assert (Lu : length seg + 1 <= length (normalize t) - j)
    by (rewrite <- length_skipn, <- Hn, Hu, length_app; simpl; lia).
  assert (Hu' : skipn j (normalize t) = seg ++ LF :: normalize rest) by (rewrite <- Hn; exact Hu).
  pose proof (R_step _ _ _ _ _ _ _ HR Hr Hnb Hbrk Hlast) as HR'.
  assert (Lb : 1 <= length brk) by (destruct Hlast as [E|E]; destruct brk; [discriminate | simpl; lia | discriminate | simpl; lia]).
  destruct (starts_with (trim_start (skipn i t)) HASH).
  { apply IH; [left; exact HR' | lia | lia]. }
  rewrite (slice_seg t i), (slice_seg (normalize t) j) by lia.
  rewrite Hr, Hu', !firstn_len_app.
  destruct (is_empty (trim seg)) eqn:Hempty.
  { apply IH; [left; exact HR' | lia | lia]. }
  rewrite (slice_prefix t (i + length seg)) by lia.
  rewrite (slice_prefix (normalize t) (j + length seg)) by lia.
  rewrite <- (bs_last_seg t (normalize t) i j seg (brk ++ rest) (LF :: normalize rest) HR Hr Hu').
  destruct (bs_last (firstn (i + length seg) t)).
  - assert (Ls : length seg >= 1)
      by (destruct seg; [simpl in Hempty; discriminate | simpl; lia]).
    unfold usize_sub.
    replace (1 <=? i + length seg) with true by (symmetry; apply Nat.leb_le; lia).
    replace (1 <=? j + length seg) with true by (symmetry; apply Nat.leb_le; lia).
    replace (i + length seg - 1) with (i + (length seg - 1)) by lia.
    replace (j + length seg - 1) with (j + (length seg - 1)) by lia.
    rewrite (slice_seg t i), (slice_seg (normalize t) j) by lia.
    rewrite Hr, Hu', !firstn_app_le by lia.
    pose proof (eat_sim t f g (firstn (length seg - 1) seg) _ _ HR') as E.
    specialize (E ltac:(lia) ltac:(lia)).
    destruct (eat_lines t f (firstn (length seg - 1) seg) (i + length seg + length brk))
      as [[a i']| |],
      (eat_lines (normalize t) g (firstn (length seg - 1) seg) (j + length seg + 1))
      as [[b j']| |]; try exact I; try contradiction.
    destruct E as [-> HR''].
    destruct (from_line (Owned b)); [split; [reflexivity | left; exact HR''] | exact I].
  - destruct (from_line (Borrowed seg)); [split; [reflexivity | left; exact HR'] | exact I].
Qed.

Lemma collect_sim : forall t f g i j,
  R' t (normalize t) i j -> length t - i < f -> length (normalize t) - j < g ->
  match collect_lines t f i, collect_lines (normalize t) g j with
  | Ret (a, _), Ret (b, _) => a = b
  | Panic, Panic => True
  | _, _ => False
  end.
Proof.
  intros t. induction f as [|f IH]; intros g i j HR Hf Hg; [lia|].
  destruct g as [|g]; [lia|].
  rewrite !collect_lines_eq.
  pose proof (next_sim t (S (length t)) (S (length (normalize t))) i j HR) as E.
  specialize (E ltac:(lia) ltac:(lia)). fold (next t i) (next (normalize t) j) in E.
  destruct (next t i) as [[[l|] i']| |] eqn:Et, (next (normalize t) j) as [[[m|] j']| |] eqn:Eu;
    try contradiction; try exact I; destruct E as [E HR'']; try discriminate.
  - injection E as <-.
    apply next_advance in Et. apply next_advance in Eu.
    specialize (IH g i' j' HR'' ltac:(lia) ltac:(lia)).
    destruct (collect_lines t f i') as [[a ?]| |], (collect_lines (normalize t) g j') as [[b ?]| |];
      try contradiction; try exact I. congruence.
  - reflexivity.
Qed.

Lemma R_start : forall t, R' t (normalize t) 0 0.
Proof. intros t. left. repeat split; simpl; lia. Qed.

(** ** C5 *)

(** C5 (corrected).  A physical line that is blank or whose first
    non-whitespace character is [#] is discarded on its own, even when it
    ends in a backslash: it starts no continuation chain, and [next] goes on
    exactly as if called at the start of the following physical line. *)
Theorem C5_trivia_line_stands_alone : forall text i s w,
  i <= length text ->
  find_newline (skipn i text) = Some (s, w) ->
  starts_with (trim_start (firstn s (skipn i text))) HASH = true \/
  is_empty (trim (firstn s (skipn i text))) = true ->
  next text i = next text (i + s + w).
Proof.
  intros text i s w Hi Hf Htriv.
  pose proof (find_newline_bounds _ _ _ Hf) as [Hw Hsw].
  rewrite length_skipn in Hsw.
  assert (Hne : text <> []) by (intros ->; destruct i; discriminate).
  unfold next at 1. rewrite next_fuel_eq, usize_sub_len by exact Hne.
  destruct (i =? length text - 1) eqn:Ei.
  - apply Nat.eqb_eq in Ei.
    replace (i + s + w) with (length text) by lia.
    unfold next. rewrite next_fuel_eq, usize_sub_len by exact Hne.
    destruct (length text =? length text - 1) eqn:E2;
      [apply Nat.eqb_eq in E2; destruct text; [congruence|simpl in E2; lia]|].
    rewrite slice_tail by lia. rewrite skipn_all. simpl. f_equal. f_equal. lia.
  - rewrite slice_tail by lia. rewrite Hf.
    destruct (starts_with (trim_start (skipn i text)) HASH) eqn:Ec.
    + apply next_fuel_next. lia.
    + rewrite slice_seg by lia.
      destruct Htriv as [Ht|Ht]; [apply starts_with_firstn in Ht; congruence|].
      rewrite Ht. apply next_fuel_next. lia.
Qed.

Lemma C5_witness :
  (0 <= length chain_after_comment /\
   find_newline (skipn 0 chain_after_comment) = Some (5, 1) /\
   (starts_with (trim_start (firstn 5 (skipn 0 chain_after_comment))) HASH = true \/
    is_empty (trim (firstn 5 (skipn 0 chain_after_comment))) = true)) /\
  next chain_after_comment 0 = next chain_after_comment (0 + 5 + 1).
Proof.
  split.
  - split; [lia|]. split; [vm_compute; reflexivity|]. left; vm_compute; reflexivity.
  - apply C5_trivia_line_stands_alone;
      [lia | vm_compute; reflexivity | left; vm_compute; reflexivity].
Defined.

(** C5 as stated fails: the comment line ends in a backslash, yet the
    following physical line is emitted as a logical line of its own. *)
Lemma C5_counterexample :
  lines_of chain_after_comment = Ret [text_of "flask==2.0"] /\
  lines_of chain_after_comment <> Ret [].
Proof. split; vm_compute; [reflexivity | discriminate]. Qed.

(** ** C1 *)

(** C1 (code bug).  The trivia stripper and the splitter are not total:
    [strip_trivia] slices [requirement[..len + position]] past the end of
    the line as soon as the loop tests a [#] after offset 0, and [next]
    computes [self.text.len() - 1] on the empty text. *)
Theorem C1_stripper_and_splitter_panic :
  strip_trivia comment_line = None /\
  next (comment_line ++ nl) 0 = Panic /\
  next [] 0 = Panic.
Proof. vm_compute. repeat split. Qed.

(** ** C2 *)

(** C2 (code bug).  The claim says: only the first [#] of the line is
    tested; it truncates the line to its offset when the character just
    before it is whitespace, and otherwise nothing is truncated; a [#] at
    offset 0 never truncates.  The code's test slices
    [requirement[..len + position]] with [len] still the full length,
    where its comment asks for the character preceding the [#]: a [#] at
    offset 0 is tested against the last character of the whole line, and
    testing any [#] past offset 0 panics.  So ["pkg==1.0  # a comment"]
    panics instead of giving 10; ["#a #b"], whose offset-0 test fails and
    whose loop goes on to the [#] at offset 3, panics instead of giving 5;
    and ["# c "] is cut to 0 instead of keeping its 4 characters. *)
Theorem C2_comment_slice_slip :
  strip_comments comment_line = None /\
  claim_comment_len comment_line = 10 /\
  strip_comments (text_of "#a #b") = None /\
  claim_comment_len (text_of "#a #b") = 5 /\
  strip_comments (text_of "# c ") = Some 0 /\
  claim_comment_len (text_of "# c ") = 4.
Proof. vm_compute. repeat split. Qed.

(** ** C3 *)

(** C3 (code bug).  The end test [self.index == self.text.len() - 1] fires
    as soon as a single character is left: ["flask==2.0"] gives its one
    line, but the last line ["b"] of ["a\nb"] is dropped and ["x"] gives
    no line at all. *)
Theorem C3_single_char_remainder_dropped :
  lines_of (text_of "flask==2.0") = Ret [text_of "flask==2.0"] /\
  lines_of (text_of "a" ++ nl ++ text_of "b") = Ret [text_of "a"] /\
  lines_of (text_of "x") = Ret [].
Proof. vm_compute. repeat split. Qed.

(** ** C4 *)

(** C4 (code bug).  The continuation loop [while let Some(..) = find_newline(..)]
    ends without appending an unterminated last physical line: the chain
    ["flask \\\n==2.0"] is split into two logical lines. *)
Theorem C4_unterminated_chain_end_split :
  lines_of (text_of "flask " ++ bs ++ nl ++ text_of "==2.0") =
  Ret [text_of "flask "; text_of "==2.0"].
Proof. vm_compute. reflexivity. Qed.

(** ** C6 *)

(** C6 (code bug).  Whatever the specifier parser does, building the
    collection of ["pkg==1.0  # a comment"] panics in the trivia stripper
    before the parser is called, instead of returning the parser's result. *)
Theorem C6_panic_before_parse :
  forall (Requirement Pep508Error : Type) (parse : str -> result Requirement Pep508Error),
  from_str Requirement Pep508Error parse comment_line = Panic.
Proof. intros. vm_compute. reflexivity. Qed.

(** ** C7 *)

(** C7 (code bug).  ["# comment\n\n   \n"] gives the empty collection, but
    the empty manifest panics on [self.text.len() - 1]. *)
Theorem C7_empty_manifest_panics :
  forall (Requirement Pep508Error : Type) (parse : str -> result Requirement Pep508Error),
  from_str Requirement Pep508Error parse
    (text_of "# comment" ++ nl ++ nl ++ text_of "   " ++ nl) = Ret (Ok []) /\
  from_str Requirement Pep508Error parse [] = Panic.
Proof. intros. vm_compute. split; reflexivity. Qed.

(** ** C8 *)

(** C8.  After the comment pass has set the length to [n], the result is
    the offset of the first occurrence of [--hash] inside [line[0..n]], or
    [n] itself when there is none. *)
Theorem C8_hash_extras_strip : forall r n,
  strip_comments r = Some n ->
  exists m, strip_trivia r = Some m /\
    ((is_prefix (text_of "--hash") (skipn m (firstn n r)) = true /\
      forall k, k < m -> is_prefix (text_of "--hash") (skipn k (firstn n r)) = false)
     \/ (m = n /\
         forall k, is_prefix (text_of "--hash") (skipn k (firstn n r)) = false)).
Proof.
  intros r n H. pose proof (strip_comments_bound _ _ H) as Hb.
  unfold strip_trivia. rewrite H. unfold strip_hash.
  pose proof (slice_seg r 0 n Hb) as E. simpl in E. rewrite E.
  unfold find. destruct (find_from (text_of "--hash") 0 (firstn n r)) as [k|] eqn:F.
  - exists k. split; [reflexivity|]. left.
    apply find_from_some in F as (_ & F1 & F2). rewrite Nat.sub_0_r in F1, F2.
    split; assumption.
  - exists n. split; [reflexivity|]. right. split; [reflexivity|].
    apply (find_from_none _ _ 0); [discriminate|exact F].
Qed.

Lemma C8_witness :
  strip_comments (text_of "pkg==1.0 --hash=sha256:abc") = Some 26 /\
  exists m, strip_trivia (text_of "pkg==1.0 --hash=sha256:abc") = Some m /\
    ((is_prefix (text_of "--hash")
        (skipn m (firstn 26 (text_of "pkg==1.0 --hash=sha256:abc"))) = true /\
      forall k, k < m -> is_prefix (text_of "--hash")
        (skipn k (firstn 26 (text_of "pkg==1.0 --hash=sha256:abc"))) = false)
     \/ (m = 26 /\
         forall k, is_prefix (text_of "--hash")
           (skipn k (firstn 26 (text_of "pkg==1.0 --hash=sha256:abc"))) = false)).
Proof.
  split; [vm_compute; reflexivity|].
  apply C8_hash_extras_strip. vm_compute. reflexivity.
Defined.

(** ** C10 *)

(** C10.  Every recursion of [next] moves the cursor past a line break of
    width at least one, so [length text + 1] rounds of fuel always suffice:
    [next] never runs out of fuel; a call that yields a line strictly
    advances the cursor, so pulling the iterator to its end terminates. *)
Theorem C10_next_terminates : forall text,
  (forall r, match find_newline r with Some (_, w) => 1 <= w | None => True end) /\
  (forall i, next text i <> OutOfFuel) /\
  (forall i, match next text i with Ret (Some _, i') => i < i' | _ => True end) /\
  split_lines text <> OutOfFuel.
Proof.
  intros text. split; [|split; [|split]].
  - intros r. destruct (find_newline r) as [[s w]|] eqn:F; [|exact I].
    apply find_newline_bounds in F. lia.
  - apply next_total.
  - intros i. destruct (next text i) as [[[l|] i']| |] eqn:E; try exact I.
    apply next_advance in E. lia.
  - unfold split_lines, run.
    destruct (collect_lines text (S (length text)) 0) as [[? ?]| |] eqn:E;
      try discriminate.
    exfalso. revert E. apply collect_lines_enough. lia.
Qed.

(** ** C9 *)

(** C9: line-ending equivalence. Replacing every CR LF pair and every bare
    CR by LF does not change what the splitter produces. *)
Theorem C9_split_normalize : forall t,
  split_lines (normalize_newlines t) = split_lines t.
Proof.
  intros t. unfold split_lines, run.
  pose proof (collect_sim t (S (length t)) (S (length (normalize t))) 0 0 (R_start t)) as E.
  specialize (E ltac:(lia) ltac:(lia)).
  destruct (collect_lines t _ 0) as [[a ?]| |], (collect_lines (normalize t) _ 0) as [[b ?]| |];
    try contradiction; try reflexivity. congruence.
Qed.

(* ------------------------------------------------------------------ *)
(** ** Lemmas for the further properties *)

Lemma find_newline_first_break : forall r,
  match find_newline r with
  | None => no_break r
  | Some (p, w) =>
      no_break (firstn p r) /\
      (nth_error r p = Some LF \/ nth_error r p = Some CR) /\
      ((w = 2 /\ nth_error r p = Some CR /\ nth_error r (S p) = Some LF) \/
       (w = 1 /\ ~ (nth_error r p = Some CR /\ nth_error r (S p) = Some LF)))
  end.
Proof.
  intros r. destruct (find_newline r) as [[p w]|] eqn:F; [|apply find_newline_none, F].
  unfold find_newline in F. destruct (memchr2 LF CR r) as [q|] eqn:E; [|discriminate].
  destruct (memchr2_split _ _ E) as (seg & c & rest & -> & <- & Hnb & Hc).
  rewrite app_nth2 in F by lia. rewrite nth_error_app2 in F by lia.
  rewrite Nat.sub_diag in F. replace (S (length seg) - length seg) with 1 in F by lia.
  simpl in F.
  assert (G : forall k, nth_error (seg ++ c :: rest) (length seg + k) = nth_error (c :: rest) k)
    by (intros k; apply nth_error_app_len).
  destruct Hc as [-> | ->].
  - replace (LF =? LF)%N with true in F by reflexivity. inversion F; subst.
    rewrite firstn_len_app, <- (Nat.add_0_r (length seg)), G.
    split; [exact Hnb|]. split; [left; reflexivity|].
    right. split; [reflexivity|]. intros [H _]. discriminate.
  - replace (CR =? LF)%N with false in F by reflexivity.
    replace (CR =? CR)%N with true in F by reflexivity. simpl in F.
    assert (G1 : nth_error (seg ++ CR :: rest) (S (length seg)) = nth_error rest 0)
      by (rewrite <- Nat.add_1_r, G; reflexivity).
    destruct rest as [|d rest'].
    + inversion F; subst. rewrite G1, firstn_len_app, <- (Nat.add_0_r (length seg)), G.
      split; [exact Hnb|]. split; [right; reflexivity|].
      right. split; [reflexivity|]. intros [_ H]. discriminate.
    + destruct (d =? LF)%N eqn:Ed; inversion F; subst;
        rewrite G1, firstn_len_app, <- (Nat.add_0_r (length seg)), G;
        (split; [exact Hnb|]; split; [right; reflexivity|]).
      * apply N.eqb_eq in Ed; subst d. left. auto.
      * right. split; [reflexivity|]. intros [_ H]. inversion H; subst.
        rewrite N.eqb_refl in Ed. discriminate.
Qed.

Lemma memchr_iter_from_ge : forall c s i p, In p (memchr_iter_from c i s) -> i <= p.
Proof. intros c s i p H. apply memchr_iter_from_spec in H. lia. Qed.

Lemma memchr_iter_from_nil : forall c s i,
  memchr_iter_from c i s = [] <-> existsb (fun d => (d =? c)%N) s = false.
Proof.
  induction s as [|d s IH]; intros i; simpl; [tauto|].
  destruct (d =? c)%N; simpl; [split; discriminate|]. apply IH.
Qed.

(** A test at a position past offset 0 slices beyond the end of the line. *)
Lemma comment_loop_past_end : forall r ps,
  (forall p, In p ps -> 1 <= p) ->
  comment_loop r ps (length r) = match ps with [] => Some (length r) | _ => None end.
Proof.
  intros r [|q ps] H; [reflexivity|]. simpl. unfold comment_test, slice.
  assert (1 <= q) by (apply H; left; reflexivity).
  replace (length r + q <=? length r) with false by (symmetry; apply Nat.leb_gt; lia).
  rewrite andb_false_r. reflexivity.
Qed.

Lemma strip_comments_cases : forall r,
  strip_comments r =
    if starts_with r HASH && is_some_and is_whitespace (last_char r) then Some 0
    else if existsb (fun c => (c =? HASH)%N) (tl r) then None
    else Some (length r).
Proof.
  intros r. unfold strip_comments. rewrite slice_prefix_full.
  destruct r as [|c r']; [reflexivity|].
  set (r := c :: r').
  assert (Hpast : forall ps, ps = memchr_iter_from HASH 1 r' ->
    comment_loop r ps (length r) =
    if existsb (fun d => (d =? HASH)%N) r' then None else Some (length r)).
  { intros ps ->. rewrite comment_loop_past_end by (intros p Hp; apply memchr_iter_from_ge in Hp; exact Hp).
    destruct (memchr_iter_from HASH 1 r') eqn:E.
    - apply memchr_iter_from_nil in E. rewrite E. reflexivity.
    - destruct (existsb (fun d => (d =? HASH)%N) r') eqn:E2; [reflexivity|].
      apply (memchr_iter_from_nil HASH r' 1) in E2. congruence. }
  unfold memchr_iter. subst r. simpl memchr_iter_from. simpl starts_with. simpl tl.
  destruct (c =? HASH)%N eqn:Ec; simpl andb.
  - simpl comment_loop. unfold comment_test.
    rewrite Nat.add_0_r, slice_prefix_full.
    destruct (is_some_and is_whitespace (last_char (c :: r'))); [reflexivity|].
    apply Hpast. reflexivity.
  - apply Hpast. reflexivity.
Qed.

Lemma find_from_le : forall pat s i k, find_from pat i s = Some k -> k <= i + length s.
Proof.
  induction s as [|c s IH]; intros i k H; simpl in H.
  - destruct (is_prefix pat []); inversion H; subst; simpl; lia.
  - destruct (is_prefix pat (c :: s)); [inversion H; subst; simpl; lia|].
    apply IH in H. simpl. lia.
Qed.

Lemma strip_hash_bound : forall r n m,
  n <= length r -> strip_hash r n = Some m -> m <= n.
Proof.
  intros r n m Hn. unfold strip_hash. rewrite (slice_prefix r n Hn).
  destruct (find (firstn n r) (text_of "--hash"%string)) eqn:E; intros H; inversion H; subst.
  - apply find_from_le in E. rewrite length_firstn in E. lia.
  - lia.
Qed.

Lemma strip_hash_some : forall r n, n <= length r -> strip_hash r n <> None.
Proof.
  intros r n Hn. unfold strip_hash. rewrite (slice_prefix r n Hn).
  destruct (find (firstn n r) (text_of "--hash"%string)); discriminate.
Qed.

Lemma strip_trivia_panics : forall r,
  strip_trivia r = None <->
  existsb (fun c => (c =? HASH)%N) (tl r) = true /\
  (starts_with r HASH && is_some_and is_whitespace (last_char r)) = false.
Proof.
  intros r. unfold strip_trivia.
  destruct (strip_comments r) as [n|] eqn:E.
  - split; [intros H; exfalso; revert H; apply strip_hash_some, strip_comments_bound, E|].
    rewrite strip_comments_cases in E. intros [H1 H2]. rewrite H1, H2 in E. discriminate.
  - rewrite strip_comments_cases in E. split; [intros _|reflexivity].
    destruct (starts_with r HASH && _); [discriminate|].
    destruct (existsb _ _); [split; reflexivity | discriminate].
Qed.

Lemma strip_trivia_bound : forall r m, strip_trivia r = Some m -> m <= length r.
Proof.
  unfold strip_trivia. intros r m H.
  destruct (strip_comments r) as [n|] eqn:E; [|discriminate].
  apply strip_comments_bound in E. pose proof (strip_hash_bound r n m E H). lia.
Qed.

Lemma from_line_slice : forall l rl, from_line l = Some rl ->
  line rl = l /\ len rl <= length (cow_str l) /\
  as_str rl = Some (firstn (len rl) (cow_str l)).
Proof.
  unfold from_line. intros l rl H.
  destruct (strip_trivia (cow_str l)) as [m|] eqn:E; [|discriminate].
  inversion H; subst; clear H. simpl. apply strip_trivia_bound in E.
  split; [reflexivity|]. split; [exact E|]. unfold as_str. simpl.
  apply slice_prefix, E.
Qed.

Lemma is_prefix_app : forall p s t, is_prefix p s = true -> is_prefix p (s ++ t) = true.
Proof.
  induction p as [|a p IH]; intros [|b s] t H; simpl in *; try discriminate; auto.
  apply andb_true_iff in H as [H1 H2]. rewrite H1, (IH _ _ H2). reflexivity.
Qed.

Lemma is_prefix_firstn : forall (p x : str) m k,
  p <> [] -> is_prefix p (skipn k (firstn m x)) = true ->
  k < m /\ is_prefix p (skipn k x) = true.
Proof.
  intros p x m k Hp H.
  assert (Hk : k < length (firstn m x)).
  { destruct (Nat.lt_ge_cases k (length (firstn m x))) as [L|L]; [exact L|].
    rewrite skipn_all2 in H by exact L. destruct p; [congruence | discriminate]. }
  rewrite length_firstn in Hk. split; [lia|].
  rewrite <- (firstn_skipn m x), skipn_app.
  replace (k - length (firstn m x)) with 0 by (rewrite length_firstn; lia).
  apply is_prefix_app, H.
Qed.

Lemma as_str_no_hash : forall l rl s,
  from_line l = Some rl -> as_str rl = Some s ->
  forall k, is_prefix (text_of "--hash"%string) (skipn k s) = false.
Proof.
  intros l rl s H Hs k.
  pose proof (from_line_slice l rl H) as (_ & _ & Ha). rewrite Ha in Hs.
  injection Hs as <-.
  unfold from_line, strip_trivia in H.
  destruct (strip_comments (cow_str l)) as [n|] eqn:E; [|discriminate].
  pose proof (strip_comments_bound _ _ E) as Hn.
  destruct (strip_hash (cow_str l) n) as [m|] eqn:Eh; [|discriminate].
  injection H as <-. simpl len.
  pose proof (strip_hash_bound _ _ _ Hn Eh) as Hm.
  unfold strip_hash in Eh. rewrite (slice_prefix _ n Hn) in Eh.
  replace (firstn m (cow_str l)) with (firstn m (firstn n (cow_str l)))
    by (rewrite firstn_firstn; f_equal; lia).
  destruct (is_prefix (text_of "--hash"%string) (skipn k (firstn m (firstn n (cow_str l))))) eqn:P;
    [|reflexivity].
  apply is_prefix_firstn in P as [Lk P]; [|discriminate].
  unfold find in Eh.
  destruct (find_from (text_of "--hash"%string) 0 (firstn n (cow_str l))) as [i|] eqn:F.
  - cbn in Eh. injection Eh as <-. apply find_from_some in F as (_ & _ & F).
    rewrite (F k) in P by lia. discriminate.
  - rewrite (find_from_none (text_of "--hash"%string) _ 0 ltac:(intros Hx; vm_compute in Hx; discriminate Hx) F k) in P. discriminate.
Qed.

Lemma no_break_firstn : forall k s, no_break s -> no_break (firstn k s).
Proof.
  induction k as [|k IH]; intros [|c s] H; simpl; try constructor.
  - inversion H; assumption.
  - apply IH. inversion H; assumption.
Qed.

Lemma find_newline_prefix : forall r s w k,
  find_newline r = Some (s, w) -> k <= s -> no_break (firstn k r).
Proof.
  intros r s w k F Hk.
  destruct (find_newline_split _ _ _ F) as (seg & brk & rest & -> & <- & _ & Hnb & _).
  rewrite firstn_app_le by exact Hk. apply no_break_firstn, Hnb.
Qed.

Lemma from_line_line : forall c l, from_line c = Some l -> line l = c.
Proof.
  unfold from_line. intros c l H. destruct (strip_trivia (cow_str c)); inversion H. reflexivity.
Qed.

Ltac slices :=
  repeat match goal with
  | H : usize_sub _ _ = Some _ |- _ =>
      unfold usize_sub in H; destruct (_ <=? _) eqn:?; inversion H; subst; clear H
  | H : slice _ _ _ = Some _ |- _ =>
      apply slice_inv in H as (? & ? & ?); subst
  end.

Section Lines.
Variable text : str.

Lemma eat_lines_nobreak : forall f acc i a i',
  no_break acc -> eat_lines text f acc i = Ret (a, i') -> no_break a.
Proof.
  induction f as [|f IH]; intros acc i a i' Hacc H; [discriminate|].
  rewrite eat_lines_eq in H. revert H. split_goal; intro H; try discriminate; facts.
  all: first
    [ apply IH in H; [exact H|]
    | inversion H; subst; clear H; try exact Hacc ].
  all: slices; apply Forall_app; split; [exact Hacc|].
  all: eapply find_newline_prefix; [eassumption | lia].
Qed.

Lemma next_fuel_line : forall f i l i',
  next_fuel text f i = Ret (Some l, i') ->
  from_line (line l) = Some l /\ no_break (cow_str (line l)).
Proof.
  induction f as [|f IH]; intros i l i' H; [discriminate|].
  rewrite next_fuel_eq in H. revert H. split_goal; intro H; try discriminate;
    facts; try (apply IH in H; exact H).
  all: try (revert H; destruct (eat_lines text f _ _) as [[joined k]| |] eqn:E; split_goal;
    intro H; try discriminate; inversion H; subst).
  all: try (inversion H; subst).
  all: match goal with
       | Hl : from_line ?c = Some ?l |- _ =>
           rewrite (from_line_line c l Hl); split; [exact Hl|]
       end; simpl.
  all: first
    [ apply find_newline_none; assumption
    | apply eat_lines_nobreak in E; [exact E|]
    | idtac ].
  all: slices; eapply find_newline_prefix; [eassumption | lia].
Qed.

End Lines.


Section Lines2.
Variable text : str.

Lemma next_fuel_none_end : forall f i i',
  next_fuel text f i = Ret (None, i') -> i' = length text - 1.
Proof.
  induction f as [|f IH]; intros i i' H; [discriminate|].
  rewrite next_fuel_eq in H. revert H. split_goal; intro H; try discriminate;
    try (apply IH in H; exact H).
  all: try (revert H; destruct (eat_lines text f _ _) as [[joined k]| |] eqn:E; split_goal;
    intro H; discriminate).
  all: inversion H; subst; unfold usize_sub in *;
    destruct (1 <=? length text) eqn:?; inversion Heqo; subst;
    try apply Nat.eqb_eq in Heqb; lia.
Qed.

Lemma next_fused : forall i i',
  next text i = Ret (None, i') -> next text i' = Ret (None, i').
Proof.
  intros i i' H. pose proof (next_fuel_none_end _ _ _ H) as ->.
  destruct text as [|c t] eqn:Et; [discriminate|]. rewrite <- Et in *.
  unfold next. rewrite next_fuel_eq, usize_sub_len by congruence.
  rewrite Nat.eqb_refl. reflexivity.
Qed.

Lemma collect_lines_lines : forall f i ls i',
  collect_lines text f i = Ret (ls, i') ->
  Forall (fun l => from_line (line l) = Some l /\ no_break (cow_str (line l))) ls.
Proof.
  induction f as [|f IH]; intros i ls i' H; [discriminate|].
  rewrite collect_lines_eq in H.
  destruct (next text i) as [[[l|] j]| |] eqn:E; try discriminate.
  - destruct (collect_lines text f j) as [[ls' k]| |] eqn:E2; try discriminate.
    inversion H; subst. constructor; [apply (next_fuel_line text _ _ _ _ E)|].
    apply (IH _ _ _ E2).
  - inversion H; subst. constructor.
Qed.

Lemma split_lines_lines : forall ls,
  split_lines text = Ret ls ->
  Forall (fun l => from_line (line l) = Some l /\ no_break (cow_str (line l))) ls.
Proof.
  unfold split_lines, run. intros ls H.
  destruct (collect_lines text _ 0) as [[ls' k]| |] eqn:E; try discriminate.
  inversion H; subst. apply (collect_lines_lines _ _ _ _ E).
Qed.

Lemma collect_requirements_lines : forall Requirement Pep508Error parse f i ls i',
  collect_lines text f i = Ret (ls, i') ->
  match collect_requirements Requirement Pep508Error parse text f i with
  | Ret (r, _) =>
      r = collect_results (map (fun l => parse (firstn (len l) (cow_str (line l)))) ls)
  | _ => False
  end.
Proof.
  intros Requirement Pep508Error parse.
  induction f as [|f IH]; intros i ls i' H; [discriminate|].
  rewrite collect_lines_eq in H. rewrite collect_requirements_eq.
  destruct (next text i) as [[[l|] j]| |] eqn:E; try discriminate.
  - destruct (collect_lines text f j) as [[ls' k]| |] eqn:E2; try discriminate.
    inversion H; subst.
    destruct (next_fuel_line text _ _ _ _ E) as [Hl _].
    destruct (from_line_slice _ _ Hl) as (_ & _ & ->).
    simpl. destruct (parse (firstn (len l) (cow_str (line l)))) as [r|e]; [|reflexivity].
    specialize (IH _ _ _ E2).
    destruct (collect_requirements Requirement Pep508Error parse text f j) as [[[rs|e] ?]| |];
      try contradiction; rewrite <- IH; reflexivity.
  - inversion H; subst. reflexivity.
Qed.

Lemma from_str_collect : forall Requirement Pep508Error parse ls,
  split_lines text = Ret ls ->
  from_str Requirement Pep508Error parse text =
  Ret (collect_results (map (fun l => parse (firstn (len l) (cow_str (line l)))) ls)).
Proof.
  intros Requirement Pep508Error parse ls H. unfold split_lines, run in H. unfold from_str, run.
  destruct (collect_lines text _ 0) as [[ls' k]| |] eqn:E; try discriminate.
  inversion H; subst.
  pose proof (collect_requirements_lines Requirement Pep508Error parse _ _ _ _ E) as G.
  destruct (collect_requirements _ _ _ _ _ _) as [[r ?]| |]; try contradiction.
  rewrite G. reflexivity.
Qed.

End Lines2.


Lemma slice_shift : forall (p t : str) i j,
  slice (p ++ t) (length p + i) (length p + j) = slice t i j.
Proof.
  intros p t i j. unfold slice. rewrite length_app.
  replace (length p + i <=? length p + j) with (i <=? j)
    by (destruct (Nat.leb_spec i j), (Nat.leb_spec (length p + i) (length p + j)); lia).
  replace (length p + j <=? length p + length t) with (j <=? length t)
    by (destruct (Nat.leb_spec j (length t)),
          (Nat.leb_spec (length p + j) (length p + length t)); lia).
  destruct ((i <=? j) && (j <=? length t)); [|reflexivity].
  rewrite skipn_app, skipn_all2 by lia. simpl.
  replace (length p + i - length p) with i by lia.
  replace (length p + j - (length p + i)) with (j - i) by lia. reflexivity.
Qed.

Lemma slice_prefix_shift : forall (p t : str) n,
  slice (p ++ t) 0 (length p + n) = option_map (app p) (slice t 0 n).
Proof.
  intros p t n. unfold slice. rewrite length_app. simpl.
  replace (length p + n <=? length p + length t) with (n <=? length t)
    by (destruct (Nat.leb_spec n (length t)),
          (Nat.leb_spec (length p + n) (length p + length t)); lia).
  destruct (n <=? length t); [|reflexivity]. simpl.
  rewrite !Nat.sub_0_r, firstn_app_2. reflexivity.
Qed.

Lemma bs_last_app : forall p x : str, bs_last p = false -> bs_last (p ++ x) = bs_last x.
Proof.
  intros p [|c x] H.
  - rewrite app_nil_r. exact H.
  - rewrite last_char_app by discriminate. reflexivity.
Qed.

Section Shift.
Variable p t : str.
Hypothesis Hp : bs_last p = false.

Lemma eat_lines_shift : forall f acc i,
  eat_lines (p ++ t) f acc (length p + i) = shift (length p) (eat_lines t f acc i).
Proof.
  induction f as [|f IH]; intros acc i; [reflexivity|].
  rewrite !eat_lines_eq, length_app, slice_shift.
  destruct (slice t i (length t)) as [rest|]; [|reflexivity].
  destruct (find_newline rest) as [[s w]|]; [|reflexivity].
  replace (length p + i + s) with (length p + (i + s)) by lia.
  rewrite slice_prefix_shift.
  destruct (slice t 0 (i + s)) as [pre|] eqn:Epre; [|reflexivity]. simpl option_map.
  cbv beta iota. rewrite bs_last_app by exact Hp.
  replace (length p + (i + s) + w) with (length p + (i + s + w)) by lia.
  destruct (bs_last pre) eqn:Eb.
  - assert (Hs : i + s <> 0).
    { intros E0. rewrite E0 in Epre. unfold slice in Epre. simpl in Epre.
      injection Epre as <-. discriminate. }
    unfold usize_sub.
    replace (1 <=? length p + (i + s)) with true by (symmetry; apply Nat.leb_le; lia).
    replace (1 <=? i + s) with true by (symmetry; apply Nat.leb_le; lia).
    replace (length p + (i + s) - 1) with (length p + (i + s - 1)) by lia.
    rewrite slice_shift.
    destruct (slice t i (i + s - 1)); [apply IH | reflexivity].
  - rewrite slice_shift. destruct (slice t i (i + s)); reflexivity.
Qed.

Hypothesis Ht : t <> [].

Lemma next_fuel_shift : forall f i,
  next_fuel (p ++ t) f (length p + i) = shift (length p) (next_fuel t f i).
Proof.
  assert (Hpt : p ++ t <> []) by (destruct p; [exact Ht | discriminate]).
  assert (Lt : 1 <= length t) by (destruct t; [congruence | simpl; lia]).
  induction f as [|f IH]; intros i; [reflexivity|].
  rewrite !next_fuel_eq, (usize_sub_len _ Hpt), (usize_sub_len _ Ht), length_app.
  replace (length p + length t - 1) with (length p + (length t - 1)) by lia.
  destruct (Nat.eqb_spec i (length t - 1)) as [E|E].
  { subst i. rewrite Nat.eqb_refl. reflexivity. }
  replace (length p + i =? length p + (length t - 1)) with false
    by (symmetry; apply Nat.eqb_neq; lia).
  rewrite slice_shift.
  destruct (slice t i (length t)) as [rest|]; [|reflexivity].
  destruct (find_newline rest) as [[s w]|].
  2: { destruct (starts_with (trim_start rest) HASH); [reflexivity|].
       destruct (is_empty (trim rest)); [reflexivity|].
       destruct (from_line (Borrowed rest)); reflexivity. }
  replace (length p + i + s + w) with (length p + (i + s + w)) by lia.
  destruct (starts_with (trim_start rest) HASH); [apply IH|].
  replace (length p + i + s) with (length p + (i + s)) by lia.
  rewrite slice_shift.
  destruct (slice t i (i + s)) as [seg|]; [|reflexivity].
  destruct (is_empty (trim seg)); [apply IH|].
  rewrite slice_prefix_shift.
  destruct (slice t 0 (i + s)) as [pre|] eqn:Epre; [|reflexivity]. simpl option_map.
  cbv beta iota. rewrite bs_last_app by exact Hp.
  destruct (bs_last pre) eqn:Eb.
  - assert (Hs : i + s <> 0).
    { intros E0. rewrite E0 in Epre. unfold slice in Epre. simpl in Epre.
      injection Epre as <-. discriminate. }
    unfold usize_sub.
    replace (1 <=? length p + (i + s)) with true by (symmetry; apply Nat.leb_le; lia).
    replace (1 <=? i + s) with true by (symmetry; apply Nat.leb_le; lia).
    replace (length p + (i + s) - 1) with (length p + (i + s - 1)) by lia.
    rewrite slice_shift.
    destruct (slice t i (i + s - 1)) as [first|]; [|reflexivity].
    rewrite eat_lines_shift.
    destruct (eat_lines t f first (i + s + w)) as [[joined k]| |]; [|reflexivity|reflexivity].
    simpl. destruct (from_line (Owned joined)); reflexivity.
  - destruct (from_line (Borrowed seg)); reflexivity.
Qed.

End Shift.

Lemma next_shift : forall p t i, bs_last p = false -> t <> [] ->
  next (p ++ t) (length p + i) = shift (length p) (next t i).
Proof.
  intros p t i Hp Ht.
  destruct (Nat.le_gt_cases i (length t)) as [Hi|Hi].
  - rewrite <- (next_fuel_next (p ++ t) (S (length t))) by (rewrite length_app; lia).
    apply next_fuel_shift; assumption.
  - unfold next. rewrite !next_fuel_eq, (usize_sub_len t Ht), usize_sub_len
      by (destruct p; [exact Ht | discriminate]).
    rewrite length_app.
    replace (length p + i =? length p + length t - 1) with false
      by (symmetry; apply Nat.eqb_neq; lia).
    replace (i =? length t - 1) with false by (symmetry; apply Nat.eqb_neq; lia).
    unfold slice.
    replace (length p + i <=? length p + length t) with false
      by (symmetry; apply Nat.leb_gt; lia).
    replace (i <=? length t) with false by (symmetry; apply Nat.leb_gt; lia).
    reflexivity.
Qed.

Lemma collect_lines_shift : forall p t f i, bs_last p = false -> t <> [] ->
  collect_lines (p ++ t) f (length p + i) = shift (length p) (collect_lines t f i).
Proof.
  intros p t f. induction f as [|f IH]; intros i Hp Ht; [reflexivity|].
  rewrite !collect_lines_eq, (next_shift p t i Hp Ht).
  destruct (next t i) as [[[l|] j]| |]; simpl; try reflexivity.
  rewrite (IH j Hp Ht). destruct (collect_lines t f j) as [[ls k]| |]; reflexivity.
Qed.

Lemma collect_lines_mono : forall t f i,
  length t - i < f -> collect_lines t (S f) i = collect_lines t f i.
Proof.
  intros t. induction f as [|f IH]; intros i Hf; [lia|].
  rewrite (collect_lines_eq t (S f)), (collect_lines_eq t f).
  destruct (next t i) as [[[l|] j]| |] eqn:E; try reflexivity.
  apply next_advance in E. rewrite IH by lia. reflexivity.
Qed.

Lemma trim_start_app : forall c x : str,
  trim_start c <> [] -> trim_start (c ++ x) = trim_start c ++ x.
Proof.
  induction c as [|d c IH]; intros x H; [simpl in H; congruence|]. simpl in *.
  destruct (is_whitespace d); [apply IH, H | reflexivity].
Qed.

Lemma next_leading_trivia : forall c t, no_break c -> t <> [] ->
  (starts_with (trim_start c) HASH = true \/ is_empty (trim c) = true) ->
  next (c ++ LF :: t) 0 = next (c ++ LF :: t) (length c + 1).
Proof.
  intros c t Hc Ht Htr.
  assert (Hne : c ++ LF :: t <> []) by (destruct c; discriminate).
  assert (L : length (c ++ LF :: t) = length c + 1 + length t)
    by (rewrite length_app; simpl; lia).
  assert (Lt : 1 <= length t) by (destruct t; [congruence | simpl; lia]).
  unfold next at 1. rewrite next_fuel_eq, (usize_sub_len _ Hne).
  replace (0 =? length (c ++ LF :: t) - 1) with false
    by (symmetry; apply Nat.eqb_neq; lia).
  rewrite slice_prefix_full, (find_newline_lf c t Hc).
  assert (Hf : length (c ++ LF :: t) - (0 + length c + 1) < length (c ++ LF :: t)) by lia.
  replace (length c + 1) with (0 + length c + 1) by reflexivity.
  destruct (starts_with (trim_start (c ++ LF :: t)) HASH) eqn:Eh;
    [apply next_fuel_next, Hf|].
  rewrite (slice_prefix _ (0 + length c)) by lia. simpl plus.
  rewrite firstn_len_app.
  replace (is_empty (trim c)) with true; [apply next_fuel_next, Hf|].
  destruct Htr as [H|H]; [|symmetry; exact H].
  rewrite trim_start_app in Eh by (intros E; rewrite E in H; discriminate).
  destruct (trim_start c); [discriminate|]. simpl in H, Eh. congruence.
Qed.

Lemma collect_lines_fuel : forall t k f i,
  length t - i < f -> collect_lines t (k + f) i = collect_lines t f i.
Proof.
  intros t k. induction k as [|k IH]; intros f i Hf; [reflexivity|].
  simpl plus. rewrite collect_lines_mono by lia. apply IH, Hf.
Qed.

Lemma split_leading_trivia : forall c t, no_break c -> t <> [] ->
  (starts_with (trim_start c) HASH = true \/ is_empty (trim c) = true) ->
  split_lines (c ++ LF :: t) = split_lines t.
Proof.
  intros c t Hc Ht Htr. unfold split_lines, run.
  assert (E : forall f, collect_lines (c ++ LF :: t) (S f) 0 =
                        collect_lines (c ++ LF :: t) (S f) (length c + 1))
    by (intros f; rewrite !collect_lines_eq, next_leading_trivia by assumption; reflexivity).
  assert (Hp : bs_last (c ++ [LF]) = false)
    by (rewrite last_char_app by discriminate; reflexivity).
  pose proof (fun f => collect_lines_shift (c ++ [LF]) t f 0 Hp Ht) as G.
  rewrite <- app_assoc, length_app, Nat.add_0_r in G. simpl app in G. simpl length in G.
  rewrite E, G.
  replace (length (c ++ LF :: t)) with ((length c + 1) + length t)
    by (rewrite length_app; simpl; lia).
  replace (S (length c + 1 + length t)) with ((length c + 1) + S (length t)) by lia.
  rewrite (collect_lines_fuel t (length c + 1) (S (length t)) 0) by lia.
  destruct (collect_lines t (S (length t)) 0) as [[ls k]| |]; reflexivity.
Qed.

Section Borrowed.
Variable text : str.

Lemma next_fuel_borrowed : forall f i l i' s,
  next_fuel text f i = Ret (Some l, i') -> line l = Borrowed s ->
  is_empty (trim s) = false /\ starts_with (trim_start s) HASH = false.
Proof.
  induction f as [|f IH]; intros i l i' s H Hs; [discriminate|].
  rewrite next_fuel_eq in H. revert H. split_goal; intro H; try discriminate;
    facts; try (eapply IH; eassumption).
  all: try (revert H; destruct (eat_lines text f _ _) as [[joined k]| |] eqn:E; split_goal;
    intro H; try discriminate; inversion H; subst;
    match goal with Hl : from_line _ = Some _ |- _ => apply from_line_line in Hl end;
    congruence).
  all: inversion H; subst;
    match goal with Hl : from_line _ = Some _ |- _ =>
      apply from_line_line in Hl; rewrite Hl in Hs; injection Hs as <-
    end.
  all: split; auto; slices.
  all: destruct (starts_with (trim_start (firstn _ (skipn i text))) HASH) eqn:Eh;
    [|reflexivity].
  all: apply starts_with_firstn in Eh; congruence.
Qed.

End Borrowed.

Lemma collect_lines_Forall : forall (P : RequirementLine -> Prop) text,
  (forall i l i', next text i = Ret (Some l, i') -> P l) ->
  forall f i ls i', collect_lines text f i = Ret (ls, i') -> Forall P ls.
Proof.
  intros P text HP f. induction f as [|f IH]; intros i ls i' H; [discriminate|].
  rewrite collect_lines_eq in H.
  destruct (next text i) as [[[l|] j]| |] eqn:E; try discriminate.
  - destruct (collect_lines text f j) as [[ls' k]| |] eqn:E2; try discriminate.
    inversion H; subst. constructor; [apply (HP _ _ _ E)|]. apply (IH _ _ _ E2).
  - inversion H; subst. constructor.
Qed.

Lemma split_lines_borrowed : forall text ls,
  split_lines text = Ret ls ->
  Forall (fun l => forall s, line l = Borrowed s ->
            is_empty (trim s) = false /\ starts_with (trim_start s) HASH = false) ls.
Proof.
  unfold split_lines, run. intros text ls H.
  destruct (collect_lines text _ 0) as [[ls' k]| |] eqn:E; try discriminate.
  inversion H; subst. apply (collect_lines_Forall _ text) with (f := S (length text)) (i := 0) (i' := k);
    [|exact E].
  intros i l i' Hn s Hs. apply (next_fuel_borrowed text _ _ _ _ _ Hn Hs).
Qed.

Lemma trivia_blank : forall c x : str,
  starts_with (trim_start (c ++ x)) HASH = false ->
  (starts_with (trim_start c) HASH = true \/ is_empty (trim c) = true) ->
  is_empty (trim c) = true.
Proof.
  intros c x Eh [H|H]; [|exact H].
  rewrite trim_start_app in Eh by (intros E; rewrite E in H; discriminate).
  destruct (trim_start c); [discriminate|]. simpl in H, Eh. congruence.
Qed.

Lemma next_fuel_at_end : forall text f, text <> [] -> 1 <= f ->
  next_fuel text f (length text) = Ret (None, length text - 1).
Proof.
  intros text [|f] Ht Hf; [lia|]. rewrite next_fuel_eq, (usize_sub_len _ Ht).
  replace (length text =? length text - 1) with false
    by (destruct text; [congruence | symmetry; apply Nat.eqb_neq; simpl; lia]).
  rewrite (slice_tail text (length text) (le_n _)), skipn_all. reflexivity.
Qed.

Lemma split_lines_one_trivia : forall c, no_break c ->
  (starts_with (trim_start c) HASH = true \/ is_empty (trim c) = true) ->
  split_lines (c ++ [LF]) = Ret [].
Proof.
  intros c Hc Htr. unfold split_lines, run. rewrite collect_lines_eq.
  assert (Hne : c ++ [LF] <> []) by (destruct c; discriminate).
  assert (L : length (c ++ [LF]) = length c + 1) by (rewrite length_app; reflexivity).
  unfold next. rewrite next_fuel_eq, (usize_sub_len _ Hne).
  destruct c as [|c0 c'] eqn:Ec; [reflexivity|]. rewrite <- Ec in *.
  replace (0 =? length (c ++ [LF]) - 1) with false
    by (symmetry; apply Nat.eqb_neq; rewrite L, Ec; simpl; lia).
  rewrite slice_prefix_full, (find_newline_lf c [] Hc).
  replace (0 + length c + 1) with (length (c ++ [LF])) by lia.
  destruct (starts_with (trim_start (c ++ [LF])) HASH) eqn:Eh.
  - rewrite next_fuel_at_end by (rewrite ?L; lia || exact Hne). reflexivity.
  - rewrite (slice_prefix _ (length c)) by lia. rewrite firstn_len_app.
    rewrite (trivia_blank c [LF] Eh Htr).
    rewrite next_fuel_at_end by (rewrite ?L; lia || exact Hne). reflexivity.
Qed.


Lemma split_lines_trivia_only : forall cs,
  cs <> [] ->
  Forall (fun c => no_break c /\
    (starts_with (trim_start c) HASH = true \/ is_empty (trim c) = true)) cs ->
  split_lines (join_lines cs) = Ret [].
Proof.
  induction cs as [|c cs IH]; intros Hcs Hall; [congruence|].
  inversion Hall as [|? ? [Hc Htr] Hall']; subst.
  destruct cs as [|c2 cs2].
  - unfold join_lines. simpl. rewrite app_nil_r. apply split_lines_one_trivia; assumption.
  - change (join_lines (c :: c2 :: cs2)) with ((c ++ [LF]) ++ join_lines (c2 :: cs2)).
    rewrite <- app_assoc. simpl app at 2.
    rewrite split_leading_trivia; [ | exact Hc | | exact Htr].
    + apply IH; [discriminate | exact Hall'].
    + unfold join_lines. simpl. destruct c2; discriminate.
Qed.

Lemma from_str_trivia_only : forall Requirement Pep508Error parse cs,
  cs <> [] ->
  Forall (fun c => no_break c /\
    (starts_with (trim_start c) HASH = true \/ is_empty (trim c) = true)) cs ->
  from_str Requirement Pep508Error parse (join_lines cs) = Ret (Ok []).
Proof.
  intros Requirement Pep508Error parse cs Hcs Hall.
  rewrite (from_str_collect _ _ _ _ _ (split_lines_trivia_only cs Hcs Hall)). reflexivity.
Qed.

(** ** Further properties of the splitter and the trivia stripper *)

(** The comment pass in closed form: length [0] when the line starts with
    [#] and ends in whitespace; otherwise a panic as soon as a [#] occurs past
    offset [0]; otherwise the full length. *)
Theorem strip_comments_exact : forall r,
  strip_comments r =
    if starts_with r HASH && is_some_and is_whitespace (last_char r) then Some 0
    else if existsb (fun c => (c =? HASH)%N) (tl r) then None
    else Some (length r).
Proof. exact strip_comments_cases. Qed.

(** [RequirementLine::as_str] on a line built by [from_line] never panics:
    it is the prefix of the stored line of length [len]. *)
Theorem from_line_as_str : forall l rl, from_line l = Some rl ->
  line rl = l /\ len rl <= length (cow_str l) /\
  as_str rl = Some (firstn (len rl) (cow_str l)).
Proof. exact from_line_slice. Qed.

(** When the splitter runs to its end without a panic, building the
    collection parses the parseable text of each logical line in order and
    returns the first error, or all the parsed requirements. *)
Theorem from_str_split : forall text Requirement Pep508Error parse ls,
  split_lines text = Ret ls ->
  from_str Requirement Pep508Error parse text =
  Ret (collect_results (map (fun l => parse (firstn (len l) (cow_str (line l)))) ls)).
Proof. exact from_str_collect. Qed.

(** A leading blank or fully commented physical line, ended by ["\n"] and
    followed by a non-empty text, does not change the logical lines. *)
Theorem split_lines_leading_trivia : forall c t, no_break c -> t <> [] ->
  (starts_with (trim_start c) HASH = true \/ is_empty (trim c) = true) ->
  split_lines (c ++ LF :: t) = split_lines t.
Proof. exact split_leading_trivia. Qed.

(** Witnesses. *)

Lemma from_line_as_str_witness :
  from_line (Borrowed hashed_line) = Some {| line := Borrowed hashed_line; len := 11 |} /\
  (line {| line := Borrowed hashed_line; len := 11 |} = Borrowed hashed_line /\
   len {| line := Borrowed hashed_line; len := 11 |} <= length (cow_str (Borrowed hashed_line)) /\
   as_str {| line := Borrowed hashed_line; len := 11 |} =
     Some (firstn 11 (cow_str (Borrowed hashed_line)))).
Proof.
  split; [vm_compute; reflexivity|].
  apply (from_line_as_str (Borrowed hashed_line)). vm_compute. reflexivity.
Defined.

Lemma as_str_no_hash_witness :
  from_line (Borrowed hashed_line) = Some {| line := Borrowed hashed_line; len := 11 |} /\
  as_str {| line := Borrowed hashed_line; len := 11 |} = Some (text_of "flask==2.0 "%string) /\
  (forall k, is_prefix (text_of "--hash"%string) (skipn k (text_of "flask==2.0 "%string)) = false).
Proof.
  split; [vm_compute; reflexivity|]. split; [vm_compute; reflexivity|].
  apply (as_str_no_hash (Borrowed hashed_line) {| line := Borrowed hashed_line; len := 11 |});
    vm_compute; reflexivity.
Defined.

Lemma next_fused_witness :
  next trivia_manifest 0 = Ret (None, 15) /\ next trivia_manifest 15 = Ret (None, 15).
Proof.
  split; [vm_compute; reflexivity|].
  apply (next_fused trivia_manifest 0 15). vm_compute. reflexivity.
Defined.

Lemma split_lines_lines_witness :
  exists ls, split_lines continued_manifest = Ret ls /\
  Forall (fun l => from_line (line l) = Some l /\ no_break (cow_str (line l))) ls.
Proof.
  exists (match split_lines continued_manifest with Ret ls => ls | _ => [] end).
  split; [vm_compute; reflexivity|].
  apply (split_lines_lines continued_manifest). vm_compute. reflexivity.
Defined.

Lemma split_lines_borrowed_witness :
  exists ls, split_lines continued_manifest = Ret ls /\
  Forall (fun l => forall s, line l = Borrowed s ->
            is_empty (trim s) = false /\ starts_with (trim_start s) HASH = false) ls.
Proof.
  exists (match split_lines continued_manifest with Ret ls => ls | _ => [] end).
  split; [vm_compute; reflexivity|].
  apply (split_lines_borrowed continued_manifest). vm_compute. reflexivity.
Defined.

Lemma from_str_split_witness :
  exists ls, split_lines continued_manifest = Ret ls /\
  from_str nat unit length_parser continued_manifest =
  Ret (collect_results (map (fun l => length_parser (firstn (len l) (cow_str (line l)))) ls)).
Proof.
  exists (match split_lines continued_manifest with Ret ls => ls | _ => [] end).
  split; [vm_compute; reflexivity|].
  apply (from_str_split continued_manifest nat unit length_parser). vm_compute. reflexivity.
Defined.

Lemma split_lines_leading_trivia_witness :
  no_break (text_of "# header"%string) /\ text_of "flask==2.0"%string <> [] /\
  split_lines (text_of "# header"%string ++ LF :: text_of "flask==2.0"%string) =
  split_lines (text_of "flask==2.0"%string).
Proof.
  assert (Hc : no_break (text_of "# header"%string))
    by (unfold no_break; vm_compute; repeat constructor; discriminate).
  assert (Ht : text_of "flask==2.0"%string <> [])
    by (intros Hx; vm_compute in Hx; discriminate Hx).
  split; [exact Hc|]. split; [exact Ht|].
  apply (split_lines_leading_trivia _ _ Hc Ht). left. vm_compute. reflexivity.
Defined.

Lemma from_str_trivia_only_witness :
  from_str nat unit length_parser (join_lines trivia_lines) = Ret (Ok []).
Proof.
  apply (from_str_trivia_only nat unit length_parser trivia_lines).
  - discriminate.
  - unfold trivia_lines, no_break. vm_compute.
    repeat constructor; try discriminate; try (left; reflexivity); right; reflexivity.
Defined.
